(** * Lazy matrix march (fuzzy longest common subsequence)

    A shallow embedding of the [LazyMatrixMarch] engine of nyorain/lmm and the
    properties its specification states about it.

    The repository holds two revisions of the translation unit:
    - [lmm.cpp]: [step] keeps in [best] the score that includes the cell's own
      match value and skips a candidate when [m.best >= cand.score + 1];
      [prune] walks in from the tail while the upper bound is too low; [run]
      only walks back from [bestRes_].
    - the second revision (module [Rev2] below): [step] keeps in [best] the
      score before the cell's match value, [prune] is the variant compiled
      under [SLOW_BUT_CORRECT_IMPL], [run] assigns [totalMatch] and writes the
      terminal cell before walking back.
    [maxPossibleScore], [metric], [insertCandidate], [popCandidate] and
    [addCandidate] are the same in both and are embedded once.  The class
    declaration ([EvalMatch], [Candidate], [match], the field defaults) is that
    of [lmm.hpp].

    Conventions of the embedding.
    - [u32] values are integers in [Z]; every [u32] operation is followed by
      its reduction modulo [2^32].
    - [float] scores are exact rationals ([Q]); [==], [<] and [>=] on them are
      [Qeq_bool], [Qltb] and [Qle_bool].
    - The intrusive doubly linked lists [queue_] and [freeList_] are Rocq
      lists, head first; [insertBefore], [insertAfter] and [unlink] of
      [list.hpp] are the corresponding splices.
    - [span] accesses are checked: an access outside the span is undefined
      behaviour in the program and [OutOfBounds] in the embedding.
    - [dlg_assert] is a no-op (release build); the asserted conditions are
      stated as predicates where a property is about them. *)

From Stdlib Require Import ZArith QArith Lia Lqa Bool Sorted.
From stdpp Require Import base list sorting.

Open Scope Z_scope.

(** ** Machine integers and comparisons *)

Definition u32 (x : Z) : Z := x mod 2 ^ 32.

Definition Qltb (x y : Q) : bool := negb (Qle_bool y x).

(** ** Outcomes of partial computations *)

Inductive outcome (A : Type) : Type :=
| Done (a : A)
| OutOfBounds
| OutOfFuel.
Arguments Done {A} a.
Arguments OutOfBounds {A}.
Arguments OutOfFuel {A}.

#[global] Instance outcome_bind : MBind outcome := fun A B f x =>
  match x with
  | Done a => f a
  | OutOfBounds => OutOfBounds
  | OutOfFuel => OutOfFuel
  end.

Definition span_get {A} (sp : list A) (k : Z) : outcome A :=
  match sp !! Z.to_nat k with
  | Some a => Done a
  | None => OutOfBounds
  end.

Definition span_set {A} (sp : list A) (k : Z) (a : A) : outcome (list A) :=
  if (Z.to_nat k <? length sp)%nat then Done (<[Z.to_nat k := a]> sp)
  else OutOfBounds.

(** ** Data model ([lmm.hpp]) *)

Record ResultMatch := { rm_i : Z; rm_j : Z; matchVal : Q }.

Record Result := { totalMatch : Q; matches : list ResultMatch }.

Record EvalMatch := { eval : Q; best : Q }.

(** [EvalMatch] as default constructed: [eval {-1.f}], [best {-1.f}]. *)
Definition EvalMatch_default : EvalMatch := {| eval := -1; best := -1 |}.

(** The payload of a [Candidate] node; [prev] and [next] are the list. *)
Record Candidate := { cand_i : Z; cand_j : Z; cand_score : Q }.

Definition Matcher : Type := Z -> Z -> Q.

(** The mutable fields of [LazyMatrixMarch].  [calls] is a ghost field: the
    arguments of every invocation of [matcher_], latest first. *)
Record LazyMatrixMarch := {
  matchMatrix_ : list EvalMatch;
  bestMatch_ : Q;
  bestRes_ : Z * Z;
  queue_ : list Candidate;
  freeList_ : list Candidate;
  numEvals_ : Z;
  numSteps_ : Z;
  calls : list (Z * Z)
}.

Definition set_matchMatrix (mm : list EvalMatch) (s : LazyMatrixMarch) :=
  {| matchMatrix_ := mm; bestMatch_ := bestMatch_ s; bestRes_ := bestRes_ s;
     queue_ := queue_ s; freeList_ := freeList_ s; numEvals_ := numEvals_ s;
     numSteps_ := numSteps_ s; calls := calls s |}.

Definition set_best (b : Q) (r : Z * Z) (s : LazyMatrixMarch) :=
  {| matchMatrix_ := matchMatrix_ s; bestMatch_ := b; bestRes_ := r;
     queue_ := queue_ s; freeList_ := freeList_ s; numEvals_ := numEvals_ s;
     numSteps_ := numSteps_ s; calls := calls s |}.

Definition set_lists (q f : list Candidate) (s : LazyMatrixMarch) :=
  {| matchMatrix_ := matchMatrix_ s; bestMatch_ := bestMatch_ s;
     bestRes_ := bestRes_ s; queue_ := q; freeList_ := f;
     numEvals_ := numEvals_ s; numSteps_ := numSteps_ s; calls := calls s |}.

Definition count_step (s : LazyMatrixMarch) :=
  {| matchMatrix_ := matchMatrix_ s; bestMatch_ := bestMatch_ s;
     bestRes_ := bestRes_ s; queue_ := queue_ s; freeList_ := freeList_ s;
     numEvals_ := numEvals_ s; numSteps_ := u32 (numSteps_ s + 1);
     calls := calls s |}.

Definition count_eval (i j : Z) (s : LazyMatrixMarch) :=
  {| matchMatrix_ := matchMatrix_ s; bestMatch_ := bestMatch_ s;
     bestRes_ := bestRes_ s; queue_ := queue_ s; freeList_ := freeList_ s;
     numEvals_ := u32 (numEvals_ s + 1); numSteps_ := numSteps_ s;
     calls := (i, j) :: calls s |}.

(** ** The engine *)

Section Engine.

Variables width_ height_ : Z.
Variable matcher_ : Matcher.
Variable branchThreshold_ : Q.

(** [float maxPossibleScore(float score, u32 width, u32 height, u32 i, u32 j)] *)
Definition maxPossibleScore (score : Q) (i j : Z) : Q :=
  (score + inject_Z (Z.min (u32 (width_ - i)) (u32 (height_ - j))))%Q.

(** [float LazyMatrixMarch::metric(const Candidate& c) const] *)
Definition metric (c : Candidate) : Q :=
  (maxPossibleScore (cand_score c) (cand_i c) (cand_j c)
   + (1 # 100) * cand_score c)%Q.

(** The flat index used by [match(i, j)]: [width() * i + j]. *)
Definition match_index (i j : Z) : Z := u32 (width_ * i + j).

(** [EvalMatch& match(u32 i, u32 j)], reading. *)
Definition match_get (s : LazyMatrixMarch) (i j : Z) : outcome EvalMatch :=
  span_get (matchMatrix_ s) (match_index i j).

(** Writing through the reference returned by [match(i, j)]. *)
Definition match_set (s : LazyMatrixMarch) (i j : Z) (m : EvalMatch)
  : outcome LazyMatrixMarch :=
  mm ← span_set (matchMatrix_ s) (match_index i j) m;
  Done (set_matchMatrix mm s).

(** The scan of [insertCandidate]: advance while the metric of [it] is greater
    than the metric of [cand], then insert [cand] before [it]. *)
Fixpoint insert_sorted (cand : Candidate) (q : list Candidate)
  : list Candidate :=
  match q with
  | [] => [cand]
  | it :: rest =>
      if Qltb (metric cand) (metric it) then it :: insert_sorted cand rest
      else cand :: it :: rest
  end.

(** [void LazyMatrixMarch::insertCandidate(u32 i, u32 j, float score)]: the
    node comes from the free list when there is one. *)
Definition insertCandidate (i j : Z) (score : Q) (s : LazyMatrixMarch)
  : LazyMatrixMarch :=
  let cand := {| cand_i := i; cand_j := j; cand_score := score |} in
  set_lists (insert_sorted cand (queue_ s)) (tail (freeList_ s)) s.

(** [Candidate LazyMatrixMarch::popCandidate()], called on a non-empty queue. *)
Definition popCandidate (c : Candidate) (rest : list Candidate)
  (s : LazyMatrixMarch) : LazyMatrixMarch :=
  set_lists rest (c :: freeList_ s) s.

(** [void LazyMatrixMarch::addCandidate(float score, u32 i, u32 j, u32 addI,
    u32 addJ)] *)
Definition addCandidate (score : Q) (i j addI addJ : Z) (s : LazyMatrixMarch)
  : LazyMatrixMarch :=
  if (width_ <=? u32 (i + addI)) || (height_ <=? u32 (j + addJ)) then
    if Qltb (bestMatch_ s) score then set_best score (i, j) s else s
  else
    let maxPossible := maxPossibleScore score (u32 (i + addI)) (u32 (j + addJ)) in
    if Qltb (bestMatch_ s) maxPossible
    then insertCandidate (u32 (i + addI)) (u32 (j + addJ)) score s
    else s.

(** The constructor: the matrix of [width * height] default cells, both lists
    empty, the seed candidate [(0, 0, 0.f)].  [lmm.cpp] shows only the seeding;
    the allocation and the list anchors are those of the second revision. *)
Definition construct : LazyMatrixMarch :=
  insertCandidate 0 0 0
    {| matchMatrix_ := replicate (Z.to_nat (u32 (width_ * height_))) EvalMatch_default;
       bestMatch_ := -1; bestRes_ := (0, 0);
       queue_ := []; freeList_ := [];
       numEvals_ := 0; numSteps_ := 0; calls := [] |}.

End Engine.

(** [span::last(n)]: the last [n] elements; undefined when [n] exceeds the
    size. *)
Definition span_last {A} (sp : list A) (n : Z) : outcome (list A) :=
  if (Z.to_nat n <=? length sp)%nat then Done (drop (length sp - Z.to_nat n) sp)
  else OutOfBounds.

(** [alloc_.alloc<ResultMatch>(n)]: [n] slots whose contents [raw] the
    allocator decides ([linalloc.hpp] is not part of the embedding). *)
Definition alloc_ResultMatch (raw : nat -> ResultMatch) (n : Z)
  : list ResultMatch :=
  map raw (seq 0 (Z.to_nat n)).

(** ** [lmm.cpp] *)

Module Lmm.
Section Engine.

Variables width_ height_ : Z.
Variable matcher_ : Matcher.
Variable branchThreshold_ : Q.

(** The loop of [prune] over the queue read from its tail: unlink while
    [maxPossibleScore(it->score, it->i, it->j) < minScore]. *)
Fixpoint prune_tail (minScore : Q) (rq fl : list Candidate)
  : list Candidate * list Candidate :=
  match rq with
  | [] => ([], fl)
  | it :: prev =>
      if Qltb (maxPossibleScore width_ height_ (cand_score it) (cand_i it) (cand_j it))
              minScore
      then prune_tail minScore prev (it :: fl)
      else (rq, fl)
  end.

(** [void LazyMatrixMarch::prune(float minScore)] *)
Definition prune (minScore : Q) (s : LazyMatrixMarch) : LazyMatrixMarch :=
  let '(rq, fl) := prune_tail minScore (rev (queue_ s)) (freeList_ s) in
  set_lists (rev rq) fl s.

(** [bool LazyMatrixMarch::step()] *)
Definition step (s : LazyMatrixMarch) : outcome (bool * LazyMatrixMarch) :=
  match queue_ s with
  | [] => Done (false, s)
  | cand :: rest =>
      let s := popCandidate cand rest (count_step s) in
      let i := cand_i cand in
      let j := cand_j cand in
      m ← match_get width_ s i j;
      if Qle_bool (cand_score cand + 1) (best m) then Done (true, s)
      else
        '(m, s) ← (if Qeq_bool (eval m) (-1)
                   then
                     let m' := {| eval := matcher_ i j; best := best m |} in
                     s' ← match_set width_ s i j m';
                     Done (m', count_eval i j s')
                   else Done (m, s)) : outcome (EvalMatch * LazyMatrixMarch);
        let newScore := (cand_score cand + eval m)%Q in
        if Qltb (best m) newScore then
          s ← match_set width_ s i j {| eval := eval m; best := newScore |};
          let s :=
            if Qltb 0 (eval m)
            then prune newScore (addCandidate width_ height_ newScore i j 1 1 s)
            else s in
          let s :=
            if Qltb (eval m) branchThreshold_
            then addCandidate width_ height_ (cand_score cand) i j 0 1
                   (addCandidate width_ height_ (cand_score cand) i j 1 0 s)
            else s in
          Done (true, s)
        else Done (true, s)
  end.

(** [while(step())], at most [fuel] iterations. *)
Fixpoint steps (fuel : nat) (s : LazyMatrixMarch) : outcome LazyMatrixMarch :=
  match fuel with
  | O => OutOfFuel
  | S fuel =>
      r ← step s;
      let '(more, s) := (r : bool * LazyMatrixMarch) in
      if more then steps fuel s else Done s
  end.

(** The loop [while(i > 0 && j > 0)] of [run]; it ends within [i + j]
    iterations. *)
Fixpoint walk (fuel : nat) (s : LazyMatrixMarch) (i j outID : Z)
  (buf : list ResultMatch) : outcome (Z * list ResultMatch) :=
  if (0 <? i) && (0 <? j) then
    match fuel with
    | O => OutOfFuel
    | S fuel =>
        score ← match_get width_ s i j;
        up ← match_get width_ s (u32 (i - 1)) j;
        if Qeq_bool (best up) (best score)
        then walk fuel s (u32 (i - 1)) j outID buf
        else
          left ← match_get width_ s i (u32 (j - 1));
          if Qeq_bool (best left) (best score)
          then walk fuel s i (u32 (j - 1)) outID buf
          else
            diag ← match_get width_ s (u32 (i - 1)) (u32 (j - 1));
            let i := u32 (i - 1) in
            let j := u32 (j - 1) in
            buf ← span_set buf outID {| rm_i := i; rm_j := j; matchVal := eval diag |};
            walk fuel s i j (u32 (outID - 1)) buf
    end
  else Done (outID, buf).

(** [res.totalMatch] is never assigned in this revision: the returned value
    is whatever [Result res;] held, [uninit]. *)
Variable uninit : Q.
Variable raw : nat -> ResultMatch.

(** [LazyMatrixMarch::Result LazyMatrixMarch::run()] *)
Definition run (fuel : nat) (s : LazyMatrixMarch) : outcome Result :=
  s ← steps fuel s;
  let maxMatches := Z.min width_ height_ in
  let buf := alloc_ResultMatch raw maxMatches in
  let outID := u32 (maxMatches - 1) in
  let '(i, j) := bestRes_ s in
  '(outID, buf) ← walk (Z.to_nat (i + j)) s i j outID buf;
  ms ← span_last buf (u32 (maxMatches - outID));
  Done {| totalMatch := uninit; matches := ms |}.

End Engine.
End Lmm.

(** ** The revision of [lmm.cpp] that defines [SLOW_BUT_CORRECT_IMPL] *)

Module Rev2.
Section Engine.

Variables width_ height_ : Z.
Variable matcher_ : Matcher.
Variable branchThreshold_ : Q.

(** The loop of [prune] over the queue read from its tail: every node is
    looked at, unlinked when its upper bound is below [minScore], and the
    scan stops after the first node with [it->score >= minScore]. *)
Fixpoint prune_scan (minScore : Q) (rq fl : list Candidate)
  : list Candidate * list Candidate :=
  match rq with
  | [] => ([], fl)
  | it :: prev =>
      let low :=
        Qltb (maxPossibleScore width_ height_ (cand_score it) (cand_i it) (cand_j it))
             minScore in
      let fl := if low then it :: fl else fl in
      if Qle_bool minScore (cand_score it) then
        (if low then prev else it :: prev, fl)
      else
        let '(prev, fl) := prune_scan minScore prev fl in
        (if low then prev else it :: prev, fl)
  end.

(** [void LazyMatrixMarch::prune(float minScore)] *)
Definition prune (minScore : Q) (s : LazyMatrixMarch) : LazyMatrixMarch :=
  let '(rq, fl) := prune_scan minScore (rev (queue_ s)) (freeList_ s) in
  set_lists (rev rq) fl s.

(** [bool LazyMatrixMarch::step()] *)
Definition step (s : LazyMatrixMarch) : outcome (bool * LazyMatrixMarch) :=
  match queue_ s with
  | [] => Done (false, s)
  | cand :: rest =>
      let s := popCandidate cand rest (count_step s) in
      let i := cand_i cand in
      let j := cand_j cand in
      m ← match_get width_ s i j;
      if Qle_bool (cand_score cand) (best m) then Done (true, s)
      else
        s ← match_set width_ s i j {| eval := eval m; best := cand_score cand |};
        '(e, s) ← (if Qeq_bool (eval m) (-1)
                   then
                     let e := matcher_ i j in
                     s' ← match_set width_ s i j {| eval := e; best := cand_score cand |};
                     Done (e, count_eval i j s')
                   else Done (eval m, s)) : outcome (Q * LazyMatrixMarch);
        let s :=
          if Qltb 0 e
          then
            let newScore := (cand_score cand + e)%Q in
            prune newScore (addCandidate width_ height_ newScore i j 1 1 s)
          else s in
        let s :=
          if Qltb e branchThreshold_
          then addCandidate width_ height_ (cand_score cand) i j 0 1
                 (addCandidate width_ height_ (cand_score cand) i j 1 0 s)
          else s in
        Done (true, s)
  end.

(** [while(step())], at most [fuel] iterations. *)
Fixpoint steps (fuel : nat) (s : LazyMatrixMarch) : outcome LazyMatrixMarch :=
  match fuel with
  | O => OutOfFuel
  | S fuel =>
      r ← step s;
      let '(more, s) := (r : bool * LazyMatrixMarch) in
      if more then steps fuel s else Done s
  end.

(** The loop [while(i > 0 && j > 0)] of [run]; entries are written at
    [outID - 1]. *)
Fixpoint walk (fuel : nat) (s : LazyMatrixMarch) (i j outID : Z)
  (buf : list ResultMatch) : outcome (Z * list ResultMatch) :=
  if (0 <? i) && (0 <? j) then
    match fuel with
    | O => OutOfFuel
    | S fuel =>
        score ← match_get width_ s i j;
        up ← match_get width_ s (u32 (i - 1)) j;
        if Qeq_bool (best up) (best score)
        then walk fuel s (u32 (i - 1)) j outID buf
        else
          left ← match_get width_ s i (u32 (j - 1));
          if Qeq_bool (best left) (best score)
          then walk fuel s i (u32 (j - 1)) outID buf
          else
            diag ← match_get width_ s (u32 (i - 1)) (u32 (j - 1));
            let i := u32 (i - 1) in
            let j := u32 (j - 1) in
            buf ← span_set buf (u32 (outID - 1))
                    {| rm_i := i; rm_j := j; matchVal := eval diag |};
            walk fuel s i j (u32 (outID - 1)) buf
    end
  else Done (outID, buf).

Variable raw : nat -> ResultMatch.

(** [LazyMatrixMarch::Result LazyMatrixMarch::run()] *)
Definition run (fuel : nat) (s : LazyMatrixMarch) : outcome Result :=
  s ← steps fuel s;
  let maxMatches := Z.min width_ height_ in
  let buf := alloc_ResultMatch raw maxMatches in
  let outID := maxMatches in
  let '(i, j) := bestRes_ s in
  lastMatch ← match_get width_ s i j;
  '(outID, buf) ← (if Qltb 0 (eval lastMatch)
                   then
                     buf ← span_set buf (u32 (outID - 1))
                             {| rm_i := i; rm_j := j; matchVal := eval lastMatch |};
                     Done (u32 (outID - 1), buf)
                   else Done (outID, buf)) : outcome (Z * list ResultMatch);
  '(outID, buf) ← walk (Z.to_nat (i + j)) s i j outID buf;
  ms ← span_last buf (u32 (maxMatches - outID));
  Done {| totalMatch := bestMatch_ s; matches := ms |}.

End Engine.
End Rev2.

(** ** Calls of [step] from outside *)

(** The states an engine passes through: the constructed one, and the one
    left by each call of [step] that returned. *)
Inductive reachable (step : LazyMatrixMarch -> outcome (bool * LazyMatrixMarch))
  (init : LazyMatrixMarch) : LazyMatrixMarch -> Prop :=
| reachable_init : reachable step init init
| reachable_step s more s' :
    reachable step init s -> step s = Done (more, s') -> reachable step init s'.

(** [n] calls of [step], whatever they return. *)
Fixpoint call_step (step : LazyMatrixMarch -> outcome (bool * LazyMatrixMarch))
  (n : nat) (s : LazyMatrixMarch) : outcome LazyMatrixMarch :=
  match n with
  | O => Done s
  | S n => r ← step s; call_step step n r.2
  end.

Lemma call_step_reachable step init n s s' :
  reachable step init s -> call_step step n s = Done s' -> reachable step init s'.
Proof.
  revert s. induction n as [|n IH]; simpl; intros s Hs Hrun.
  - by inversion Hrun; subst.
  - destruct (step s) as [[more s1]| |] eqn:Hstep; simpl in Hrun; try discriminate.
    eapply IH; [|exact Hrun]. by eapply reachable_step.
Qed.

(** ** Order facts on scores *)

Lemma Qltb_lt (x y : Q) : Qltb x y = true <-> (x < y)%Q.
Proof.
  unfold Qltb. rewrite negb_true_iff, <- not_true_iff_false, Qle_bool_iff.
  split; [apply Qnot_le_lt | apply Qlt_not_le].
Qed.

Lemma Qltb_ge (x y : Q) : Qltb x y = false <-> (y <= x)%Q.
Proof. unfold Qltb. by rewrite negb_false_iff, Qle_bool_iff. Qed.

Lemma u32_range (x : Z) : 0 <= u32 x < 2 ^ 32.
Proof. unfold u32. apply Z.mod_pos_bound. lia. Qed.

Lemma u32_small (x : Z) : 0 <= x < 2 ^ 32 -> u32 x = x.
Proof. unfold u32. intros. by apply Z.mod_small. Qed.

(** ** The frontier: order and insertion *)

Section Frontier.

Variables width_ height_ : Z.

Definition in_range (i j : Z) : Prop := 0 <= i < width_ /\ 0 <= j < height_.

Definition cand_in_range (c : Candidate) : Prop :=
  in_range (cand_i c) (cand_j c).

(** [a] may stand before [b] in the queue. *)
Definition metric_ge (a b : Candidate) : Prop :=
  (metric width_ height_ b <= metric width_ height_ a)%Q.

(** Non-increasing metric from head to tail. *)
Definition queue_sorted (q : list Candidate) : Prop :=
  StronglySorted metric_ge q.

Lemma insert_sorted_split cand q :
  exists l1 l2,
    q = l1 ++ l2 /\ insert_sorted width_ height_ cand q = l1 ++ cand :: l2 /\
    Forall (fun it => (metric width_ height_ cand < metric width_ height_ it)%Q) l1 /\
    (forall it, head l2 = Some it ->
                (metric width_ height_ it <= metric width_ height_ cand)%Q).
Proof.
  induction q as [|it rest IH]; simpl.
  - exists [], []. repeat split; [constructor | discriminate].
  - destruct (Qltb _ _) eqn:Hlt.
    + destruct IH as (l1 & l2 & -> & -> & Hl1 & Hl2).
      exists (it :: l1), l2. repeat split; [|done].
      constructor; [by apply Qltb_lt | done].
    + exists [], (it :: rest). repeat split; [constructor|].
      intros it' [= <-]. by apply Qltb_ge.
Qed.

Lemma insert_sorted_perm cand q :
  insert_sorted width_ height_ cand q ≡ₚ cand :: q.
Proof.
  destruct (insert_sorted_split cand q) as (l1 & l2 & -> & -> & _).
  by rewrite Permutation_middle.
Qed.

Lemma insert_sorted_Forall (P : Candidate -> Prop) cand q :
  P cand -> Forall P q -> Forall P (insert_sorted width_ height_ cand q).
Proof. intros Hc Hq. rewrite insert_sorted_perm. by constructor. Qed.

Lemma insert_sorted_sorted cand q :
  queue_sorted q -> queue_sorted (insert_sorted width_ height_ cand q).
Proof.
  unfold queue_sorted. induction 1 as [|it rest Hrest IH Hit]; simpl.
  - repeat constructor.
  - destruct (Qltb _ _) eqn:Hlt.
    + constructor; [done|]. apply insert_sorted_Forall; [|done].
      unfold metric_ge. apply Qltb_lt in Hlt. by apply Qlt_le_weak.
    + apply Qltb_ge in Hlt. constructor; [by constructor|].
      constructor; [done|].
      eapply Forall_impl; [exact Hit|]. unfold metric_ge. intros b Hb.
      by eapply Qle_trans.
Qed.

Lemma queue_sorted_sublist q q' :
  q' `sublist_of` q -> queue_sorted q -> queue_sorted q'.
Proof.
  unfold queue_sorted. induction 1 as [|x l1 l2 Hsub IH|x l1 l2 Hsub IH];
    inversion 1; subst; [constructor| |by auto].
  constructor; [by auto|].
  eapply Forall_forall. intros y Hy. eapply Forall_forall; [eassumption|].
  by eapply sublist_subseteq.
Qed.

Lemma sublist_rev {A} (l k : list A) : l `sublist_of` k -> rev l `sublist_of` rev k.
Proof.
  induction 1 as [|x l1 l2 Hsub IH|x l1 l2 Hsub IH]; simpl; [done| |].
  - by apply sublist_app.
  - by apply sublist_inserts_r.
Qed.

End Frontier.

(** ** What [prune] leaves of the queue *)

Lemma Lmm_prune_tail_sublist W H ms rq fl :
  (Lmm.prune_tail W H ms rq fl).1 `sublist_of` rq.
Proof.
  revert fl. induction rq as [|it prev IH]; intros fl; simpl; [done|].
  destruct (Qltb _ _); simpl; [|done].
  by apply sublist_cons.
Qed.

Lemma Lmm_prune_queue W H ms s :
  queue_ (Lmm.prune W H ms s) `sublist_of` queue_ s.
Proof.
  unfold Lmm.prune.
  pose proof (Lmm_prune_tail_sublist W H ms (rev (queue_ s)) (freeList_ s)) as Hsub.
  destruct (Lmm.prune_tail _ _ _ _ _) as [rq fl]; simpl in *.
  apply sublist_rev in Hsub. by rewrite rev_involutive in Hsub.
Qed.

Lemma Rev2_prune_scan_sublist W H ms rq fl :
  (Rev2.prune_scan W H ms rq fl).1 `sublist_of` rq.
Proof.
  revert fl. induction rq as [|it prev IH]; intros fl; simpl; [done|].
  destruct (Qle_bool ms (cand_score it)).
  - destruct (Qltb _ _); simpl; [by apply sublist_cons | done].
  - specialize (IH (if Qltb (maxPossibleScore W H (cand_score it) (cand_i it) (cand_j it)) ms
                    then it :: fl else fl)).
    destruct (Rev2.prune_scan _ _ _ _ _) as [prev' fl']; simpl in *.
    destruct (Qltb _ _); simpl; [by apply sublist_cons | by apply sublist_skip].
Qed.

Lemma Rev2_prune_queue W H ms s :
  queue_ (Rev2.prune W H ms s) `sublist_of` queue_ s.
Proof.
  unfold Rev2.prune.
  pose proof (Rev2_prune_scan_sublist W H ms (rev (queue_ s)) (freeList_ s)) as Hsub.
  destruct (Rev2.prune_scan _ _ _ _ _) as [rq fl]; simpl in *.
  apply sublist_rev in Hsub. by rewrite rev_involutive in Hsub.
Qed.

(** ** Invariants of the engine *)

Section Invariant.

Variables width_ height_ : Z.
Variable matcher_ : Matcher.

(** The place in [matchMatrix_] that a call of the matcher filled. *)
Definition call_index (p : Z * Z) : nat :=
  Z.to_nat (match_index width_ p.1 p.2).

(** The frontier holds in-range candidates in non-increasing metric. *)
Definition queue_ok (s : LazyMatrixMarch) : Prop :=
  Forall (cand_in_range width_ height_) (queue_ s) /\
  queue_sorted width_ height_ (queue_ s).

(** The cell at [k] holds a match value. *)
Definition evaluated (mm : list EvalMatch) (k : nat) : Prop :=
  exists m, mm !! k = Some m /\ ~ (eval m == -1)%Q.

(** The matcher never answers the "unevaluated" mark. *)
Definition never_unevaluated : Prop :=
  forall i j, in_range width_ height_ i j -> ~ (matcher_ i j == -1)%Q.

(** Every call of the matcher filled a cell of its own, and [numEvals_]
    counts the calls. *)
Definition calls_fill (s : LazyMatrixMarch) : Prop :=
  NoDup (map call_index (calls s)) /\
  Forall (fun p => evaluated (matchMatrix_ s) (call_index p)) (calls s) /\
  numEvals_ s = Z.of_nat (length (calls s)).

(** Every call of the matcher had in-range arguments; the matrix keeps its
    size; and the calls fill cells when the matcher keeps its contract. *)
Definition evals_ok (s : LazyMatrixMarch) : Prop :=
  Forall (fun p => in_range width_ height_ p.1 p.2) (calls s) /\
  length (matchMatrix_ s) = Z.to_nat (u32 (width_ * height_)) /\
  (never_unevaluated -> calls_fill s).

Definition same_evals (s s' : LazyMatrixMarch) : Prop :=
  matchMatrix_ s' = matchMatrix_ s /\ calls s' = calls s /\
  numEvals_ s' = numEvals_ s.

Lemma evals_ok_same s s' : same_evals s s' -> evals_ok s -> evals_ok s'.
Proof. unfold evals_ok, calls_fill. intros (-> & -> & ->). done. Qed.

Lemma addCandidate_same_evals score i j addI addJ s :
  same_evals s (addCandidate width_ height_ score i j addI addJ s).
Proof.
  unfold addCandidate, same_evals.
  repeat (destruct (_ : bool); simpl); done.
Qed.

Lemma addCandidate_queue_ok score i j addI addJ s :
  queue_ok s -> queue_ok (addCandidate width_ height_ score i j addI addJ s).
Proof.
  unfold addCandidate, queue_ok. intros [Hr Hs].
  destruct (_ || _) eqn:Hout.
  - by destruct (Qltb _ _).
  - destruct (Qltb _ _); [|done]. simpl.
    apply orb_false_iff in Hout as [Hi Hj].
    apply Z.leb_gt in Hi, Hj.
    split; [|by apply insert_sorted_sorted].
    apply insert_sorted_Forall; [|done].
    unfold cand_in_range, in_range; simpl.
    pose proof (u32_range (i + addI)). pose proof (u32_range (j + addJ)). lia.
Qed.

Lemma Lmm_prune_same_evals ms s : same_evals s (Lmm.prune width_ height_ ms s).
Proof. unfold Lmm.prune, same_evals. by destruct (Lmm.prune_tail _ _ _ _ _). Qed.

Lemma Rev2_prune_same_evals ms s : same_evals s (Rev2.prune width_ height_ ms s).
Proof. unfold Rev2.prune, same_evals. by destruct (Rev2.prune_scan _ _ _ _ _). Qed.

Lemma queue_ok_sublist s s' :
  queue_ s' `sublist_of` queue_ s -> queue_ok s -> queue_ok s'.
Proof.
  unfold queue_ok. intros Hsub [Hr Hs]. split.
  - eapply Forall_forall. intros c Hc. eapply Forall_forall; [exact Hr|].
    by eapply sublist_subseteq.
  - by eapply queue_sorted_sublist.
Qed.

Lemma queue_ok_pop cand rest s :
  queue_ s = cand :: rest -> queue_ok s ->
  queue_ok (popCandidate cand rest (count_step s)).
Proof.
  unfold queue_ok. intros -> [Hr Hs]; simpl.
  inversion Hr; inversion Hs; by subst.
Qed.

(** Cells are never taken back: an evaluated cell stays evaluated. *)
Definition matrix_grows (mm mm' : list EvalMatch) : Prop :=
  length mm' = length mm /\ forall k, evaluated mm k -> evaluated mm' k.

Lemma match_get_Done s i j m :
  match_get width_ s i j = Done m ->
  matchMatrix_ s !! Z.to_nat (match_index width_ i j) = Some m.
Proof. unfold match_get, span_get. by destruct (_ !! _); intros [= ->]. Qed.

Lemma match_set_Done s i j m s' :
  match_set width_ s i j m = Done s' ->
  s' = set_matchMatrix (<[Z.to_nat (match_index width_ i j) := m]> (matchMatrix_ s)) s.
Proof.
  unfold match_set, span_set. destruct (_ <? _)%nat; simpl; [|done].
  by intros [= <-].
Qed.

Lemma insert_grows mm k m m' :
  mm !! k = Some m -> (~ (eval m == -1)%Q -> ~ (eval m' == -1)%Q) ->
  matrix_grows mm (<[k := m']> mm).
Proof.
  intros Hk Hkeep. split; [by rewrite length_insert|].
  intros k' (m0 & Hk' & Hm0). destruct (decide (k = k')) as [<-|Hne].
  - exists m'. split.
    + apply list_lookup_insert_eq. by eapply lookup_lt_Some.
    + apply Hkeep. congruence.
  - exists m0. by rewrite list_lookup_insert_ne.
Qed.

Lemma evals_ok_grows s s' :
  matrix_grows (matchMatrix_ s) (matchMatrix_ s') ->
  calls s' = calls s -> numEvals_ s' = numEvals_ s ->
  evals_ok s -> evals_ok s'.
Proof.
  unfold evals_ok, calls_fill. intros [Hlen Hg] -> -> (Hr & Hsz & Hfill).
  repeat split; [done|congruence|..]; destruct (Hfill H) as (Hnd & Hev & Hn);
    try done.
  eapply Forall_impl; [exact Hev|]. intros p Hp. by apply Hg.
Qed.

Lemma NoDup_bounded_length (l : list nat) (n : nat) :
  NoDup l -> Forall (fun k => k < n)%nat l -> (length l <= n)%nat.
Proof.
  intros Hnd Hlt.
  assert (length l <= length (seq 0 n))%nat as Hle.
  { apply submseteq_length, NoDup_submseteq; [done|].
    intros k Hk. apply elem_of_seq. rewrite Forall_forall in Hlt.
    specialize (Hlt k Hk). lia. }
  by rewrite length_seq in Hle.
Qed.

Lemma calls_fill_length s :
  calls_fill s -> (length (calls s) <= length (matchMatrix_ s))%nat.
Proof.
  intros (Hnd & Hev & _).
  rewrite <- (length_map call_index). apply NoDup_bounded_length; [done|].
  apply Forall_map. eapply Forall_impl; [exact Hev|].
  intros p (m & Hm & _); simpl. by eapply lookup_lt_Some.
Qed.

(** The matcher is called for [(i, j)] on a cell that was unevaluated. *)
Lemma evals_ok_call s s' i j m :
  evals_ok s ->
  in_range width_ height_ i j ->
  matchMatrix_ s !! call_index (i, j) = Some m -> (eval m == -1)%Q ->
  matrix_grows (matchMatrix_ s) (matchMatrix_ s') ->
  (never_unevaluated -> evaluated (matchMatrix_ s') (call_index (i, j))) ->
  calls s' = calls s -> numEvals_ s' = numEvals_ s ->
  evals_ok (count_eval i j s').
Proof.
  intros Hok Hin Hm Hun Hg Hnew Hc Hn.
  assert (Hok' : evals_ok s') by by eapply evals_ok_grows.
  destruct Hok as (Hr & Hsz & Hfill).
  destruct Hok' as (_ & Hsz' & Hfill').
  unfold evals_ok; simpl. rewrite Hc.
  split; [by constructor|]. split; [done|]. intros Hcontract.
  destruct (Hfill Hcontract) as (Hnd & Hev & Hnum).
  destruct (Hfill' Hcontract) as (_ & Hev' & _).
  assert (Hfresh : call_index (i, j) ∉ map call_index (calls s)).
  { intros Hel. apply list_elem_of_fmap in Hel as (p & Hp & Hel).
    rewrite Forall_forall in Hev. destruct (Hev p Hel) as (m0 & Hm0 & Hne).
    rewrite <- Hp in Hm0. congruence. }
  assert (Hcf : calls_fill
    {| matchMatrix_ := matchMatrix_ s'; bestMatch_ := bestMatch_ s';
       bestRes_ := bestRes_ s'; queue_ := queue_ s'; freeList_ := freeList_ s';
       numEvals_ := Z.of_nat (length ((i, j) :: calls s));
       numSteps_ := numSteps_ s'; calls := (i, j) :: calls s |}).
  { unfold calls_fill; simpl. repeat split.
    - by constructor.
    - constructor; [by apply Hnew|]. by rewrite <- Hc. }
  pose proof (calls_fill_length _ Hcf) as Hle. simpl in Hle. rewrite Hsz' in Hle.
  destruct Hcf as (Hnd' & Hev'' & _); simpl in *.
  unfold calls_fill; simpl. rewrite Hc. repeat split; try done.
  rewrite Hn, Hnum. pose proof (u32_range (width_ * height_)).
  rewrite u32_small; lia.
Qed.

End Invariant.

(** ** [step] keeps the invariants *)

Section StepInvariant.

Variables width_ height_ : Z.
Variable matcher_ : Matcher.
Variable branchThreshold_ : Q.

Definition engine_ok (s : LazyMatrixMarch) : Prop :=
  queue_ok width_ height_ s /\ evals_ok width_ height_ matcher_ s.

Lemma engine_ok_addCandidate score i j addI addJ s :
  engine_ok s -> engine_ok (addCandidate width_ height_ score i j addI addJ s).
Proof.
  intros [Hq He]. split; [by apply addCandidate_queue_ok|].
  eapply evals_ok_same; [apply addCandidate_same_evals | done].
Qed.

Lemma engine_ok_Lmm_prune ms s :
  engine_ok s -> engine_ok (Lmm.prune width_ height_ ms s).
Proof.
  intros [Hq He]. split.
  - eapply queue_ok_sublist; [apply Lmm_prune_queue | done].
  - eapply evals_ok_same; [apply Lmm_prune_same_evals | done].
Qed.

Lemma engine_ok_Rev2_prune ms s :
  engine_ok s -> engine_ok (Rev2.prune width_ height_ ms s).
Proof.
  intros [Hq He]. split.
  - eapply queue_ok_sublist; [apply Rev2_prune_queue | done].
  - eapply evals_ok_same; [apply Rev2_prune_same_evals | done].
Qed.

Lemma engine_ok_set_matchMatrix s k m m' :
  matchMatrix_ s !! k = Some m ->
  (~ (eval m == -1)%Q -> ~ (eval m' == -1)%Q) ->
  engine_ok s -> engine_ok (set_matchMatrix (<[k := m']> (matchMatrix_ s)) s).
Proof.
  intros Hk Hkeep [Hq He]. split; [done|].
  apply (evals_ok_grows _ _ _ s); [|done|done|exact He]. simpl. by eapply insert_grows.
Qed.

Lemma engine_ok_construct :
  0 < width_ -> 0 < height_ -> engine_ok (construct width_ height_).
Proof.
  intros HW HH.
  unfold construct, insertCandidate, engine_ok, queue_ok, evals_ok, calls_fill; simpl.
  repeat split; try (by constructor); try (by rewrite length_replicate).
  repeat constructor.
Qed.

Lemma engine_ok_evaluate s i j m b :
  in_range width_ height_ i j -> engine_ok s ->
  matchMatrix_ s !! Z.to_nat (match_index width_ i j) = Some m ->
  (eval m == -1)%Q ->
  engine_ok
    (count_eval i j
       (set_matchMatrix
          (<[Z.to_nat (match_index width_ i j) := {| eval := matcher_ i j; best := b |}]>
             (matchMatrix_ s)) s)).
Proof.
  intros Hin [Hq He] Hget Hun. split; [done|].
  eapply (evals_ok_call _ _ _ s _ i j m); try done; simpl.
  - eapply insert_grows; [done|]. by intros [].
  - intros Hm. eexists. split.
    + apply list_lookup_insert_eq. by eapply lookup_lt_Some.
    + simpl. by apply Hm.
Qed.

Lemma bind_Done {A B} (x : outcome A) (f : A -> outcome B) (b : B) :
  x ≫= f = Done b -> exists a, x = Done a /\ f a = Done b.
Proof. destruct x; simpl; [eauto | done | done]. Qed.

(** The successors of a [step], added to any state. *)
Ltac step_tail :=
  repeat first
    [ progress simpl
    | match goal with
      | |- context [if ?b then _ else _] => destruct b
      | |- engine_ok (addCandidate _ _ _ _ _ _ _ _) => apply engine_ok_addCandidate
      | |- engine_ok (Lmm.prune _ _ _ _) => apply engine_ok_Lmm_prune
      | |- engine_ok (Rev2.prune _ _ _ _) => apply engine_ok_Rev2_prune
      end ].

Lemma Lmm_step_ok s more s' :
  engine_ok s ->
  Lmm.step width_ height_ matcher_ branchThreshold_ s = Done (more, s') ->
  engine_ok s'.
Proof.
  intros Hok. unfold Lmm.step.
  destruct (queue_ s) as [|cand rest] eqn:Hqs; [by intros [= <- <-]|].
  assert (Hin : cand_in_range width_ height_ cand).
  { destruct Hok as [[Hr _] _]. rewrite Hqs in Hr. by inversion Hr. }
  assert (Hok1 : engine_ok (popCandidate cand rest (count_step s))).
  { destruct Hok as [Hq He]. split; [by apply queue_ok_pop|].
    eapply evals_ok_same; [|exact He]. done. }
  clear Hok Hqs. revert Hok1.
  generalize (popCandidate cand rest (count_step s)). clear s. intros s Hok.
  cbn zeta. intros (m & Hget%match_get_Done & Hstep)%bind_Done.
  destruct (Qle_bool _ _); [by injection Hstep as <- <-|].
  apply bind_Done in Hstep as ([m0 s0] & Heval & Hstep).
  (* the cell after the evaluation *)
  assert (engine_ok s0 /\
          matchMatrix_ s0 !! Z.to_nat (match_index width_ (cand_i cand) (cand_j cand))
          = Some m0) as [Hok0 Hget0].
  { destruct (Qeq_bool (eval m) (-1)) eqn:Heq.
    - apply bind_Done in Heval as (s2 & ->%match_set_Done & [= <- <-]). split.
      + apply engine_ok_evaluate with (m := m); try done. by apply Qeq_bool_iff.
      + simpl. apply list_lookup_insert_eq. by eapply lookup_lt_Some.
    - by injection Heval as <- <-. }
  clear Heval Hget Hok.
  (* the new best score and the successors *)
  destruct (Qltb (best m0) _); [|by injection Hstep as <- <-].
  apply bind_Done in Hstep as (s1 & ->%match_set_Done & [= <- <-]).
  pose proof (engine_ok_set_matchMatrix s0 _ m0
                {| eval := eval m0; best := (cand_score cand + eval m0)%Q |}
                Hget0 (fun H => H) Hok0).
  step_tail; done.
Qed.

Lemma Rev2_step_ok s more s' :
  engine_ok s ->
  Rev2.step width_ height_ matcher_ branchThreshold_ s = Done (more, s') ->
  engine_ok s'.
Proof.
  intros Hok. unfold Rev2.step.
  destruct (queue_ s) as [|cand rest] eqn:Hqs; [by intros [= <- <-]|].
  assert (Hin : cand_in_range width_ height_ cand).
  { destruct Hok as [[Hr _] _]. rewrite Hqs in Hr. by inversion Hr. }
  assert (Hok1 : engine_ok (popCandidate cand rest (count_step s))).
  { destruct Hok as [Hq He]. split; [by apply queue_ok_pop|].
    eapply evals_ok_same; [|exact He]. done. }
  clear Hok Hqs. revert Hok1.
  generalize (popCandidate cand rest (count_step s)). clear s. intros s Hok.
  cbn zeta. intros (m & Hget%match_get_Done & Hstep)%bind_Done.
  destruct (Qle_bool _ _); [by injection Hstep as <- <-|].
  apply bind_Done in Hstep as (sa & Hsa%match_set_Done & Hstep).
  assert (engine_ok sa /\
          matchMatrix_ sa !! Z.to_nat (match_index width_ (cand_i cand) (cand_j cand))
          = Some {| eval := eval m; best := cand_score cand |}) as [Hoka Hgeta].
  { subst sa. split; [by eapply engine_ok_set_matchMatrix|].
    simpl. apply list_lookup_insert_eq. by eapply lookup_lt_Some. }
  clear Hsa Hget Hok.
  apply bind_Done in Hstep as ([e sb] & Heval & [= <- <-]).
  (* the state after the evaluation *)
  assert (engine_ok sb) as Hokb.
  { destruct (Qeq_bool (eval m) (-1)) eqn:Heq.
    - apply bind_Done in Heval as (s2 & ->%match_set_Done & [= <- <-]).
      eapply engine_ok_evaluate; try done. simpl. by apply Qeq_bool_iff.
    - by injection Heval as <- <-. }
  step_tail; done.
Qed.

End StepInvariant.

(** ** The two revisions side by side *)

Inductive revision : Type := lmm_cpp | slow_prune_rev.

Definition step_of (r : revision) (W H : Z) (matcher : Matcher) (thr : Q)
  : LazyMatrixMarch -> outcome (bool * LazyMatrixMarch) :=
  match r with
  | lmm_cpp => Lmm.step W H matcher thr
  | slow_prune_rev => Rev2.step W H matcher thr
  end.

(** A state of an engine constructed for [W], [H], [matcher] and [thr] after
    any number of calls of [step] ([run] makes such calls only). *)
Definition engine_state (r : revision) (W H : Z) (matcher : Matcher) (thr : Q)
  (s : LazyMatrixMarch) : Prop :=
  reachable (step_of r W H matcher thr) (construct W H) s.

(** The matcher's contract: values in [[0, 1]] on the matrix. *)
Definition matcher_contract (W H : Z) (matcher : Matcher) : Prop :=
  forall i j, 0 <= i < W -> 0 <= j < H -> (0 <= matcher i j <= 1)%Q.

Lemma matcher_contract_never_unevaluated W H matcher :
  matcher_contract W H matcher -> never_unevaluated W H matcher.
Proof.
  intros Hc i j [Hi Hj] Heq. destruct (Hc i j Hi Hj) as [H0 _].
  rewrite Heq in H0. by apply Qle_bool_iff in H0.
Qed.

Lemma engine_state_ok r W H matcher thr s :
  0 < W -> 0 < H -> engine_state r W H matcher thr s ->
  engine_ok W H matcher s.
Proof.
  intros HW HH. induction 1 as [|s more s' _ IH Hstep].
  - by apply engine_ok_construct.
  - destruct r; simpl in Hstep.
    + by eapply Lmm_step_ok.
    + by eapply Rev2_step_ok.
Qed.

(** [steps] and [run] only pass through engine states. *)
Lemma Lmm_steps_reachable W H matcher thr init fuel s s' :
  reachable (Lmm.step W H matcher thr) init s ->
  Lmm.steps W H matcher thr fuel s = Done s' ->
  reachable (Lmm.step W H matcher thr) init s'.
Proof.
  revert s. induction fuel as [|fuel IH]; simpl; intros s Hs; [done|].
  destruct (Lmm.step W H matcher thr s) as [[more s1]| |] eqn:Hstep; simpl; try done.
  assert (reachable (Lmm.step W H matcher thr) init s1) by by eapply reachable_step.
  destruct more; [by apply IH | by intros [= <-]].
Qed.

Lemma Rev2_steps_reachable W H matcher thr init fuel s s' :
  reachable (Rev2.step W H matcher thr) init s ->
  Rev2.steps W H matcher thr fuel s = Done s' ->
  reachable (Rev2.step W H matcher thr) init s'.
Proof.
  revert s. induction fuel as [|fuel IH]; simpl; intros s Hs; [done|].
  destruct (Rev2.step W H matcher thr s) as [[more s1]| |] eqn:Hstep; simpl; try done.
  assert (reachable (Rev2.step W H matcher thr) init s1) by by eapply reachable_step.
  destruct more; [by apply IH | by intros [= <-]].
Qed.

(** ** The bound of a popped candidate against [bestMatch_] *)

Lemma inject_Z_ge1 (k : Z) : 1 <= k -> (1 <= inject_Z k)%Q.
Proof. intros. change 1%Q with (inject_Z 1). rewrite <- Zle_Qle. lia. Qed.

Lemma inject_Z_pred_le (a b : Z) : a - 1 <= b -> (inject_Z a - 1 <= inject_Z b)%Q.
Proof.
  intros Hle. rewrite Zle_Qle in Hle.
  replace (a - 1) with (a + -1) in Hle by lia. rewrite inject_Z_plus in Hle.
  change (inject_Z (-1)) with (-1)%Q in Hle. lra.
Qed.

Section PopBound.

Variables width_ height_ : Z.


(** [maxPossibleScore(c.score, c.i, c.j)] *)
Definition upperBound (c : Candidate) : Q :=
  maxPossibleScore width_ height_ (cand_score c) (cand_i c) (cand_j c).
















Definition prune_of (r : revision) : Q -> LazyMatrixMarch -> LazyMatrixMarch :=
  match r with
  | lmm_cpp => Lmm.prune width_ height_
  | slow_prune_rev => Rev2.prune width_ height_
  end.

Lemma prune_of_queue r minScore s :
  queue_ (prune_of r minScore s) `sublist_of` queue_ s.
Proof. destruct r; [apply Lmm_prune_queue | apply Rev2_prune_queue]. Qed.

Lemma prune_of_bestMatch r minScore s :
  bestMatch_ (prune_of r minScore s) = bestMatch_ s.
Proof.
  destruct r; simpl; [unfold Lmm.prune | unfold Rev2.prune];
    by destruct (_ : list Candidate * list Candidate).
Qed.



(** What [addCandidate] does to the queue and to [bestMatch_]. *)
Lemma addCandidate_cases score i j addI addJ s :
  let s' := addCandidate width_ height_ score i j addI addJ s in
  let z := {| cand_i := u32 (i + addI); cand_j := u32 (j + addJ);
              cand_score := score |} in
  (queue_ s' = queue_ s /\
   (bestMatch_ s' = bestMatch_ s \/ bestMatch_ s' = score)) \/
  (queue_ s' = insert_sorted width_ height_ z (queue_ s) /\
   bestMatch_ s' = bestMatch_ s /\
   u32 (i + addI) < width_ /\ u32 (j + addJ) < height_ /\
   (bestMatch_ s < upperBound z)%Q).
Proof.
  cbn zeta. unfold addCandidate.
  destruct (_ || _) eqn:Hout.
  - left. destruct (Qltb _ _); simpl; auto.
  - apply orb_false_iff in Hout as [Hi%Z.leb_gt Hj%Z.leb_gt].
    destruct (Qltb _ _) eqn:Hg; [|by left; auto].
    right. apply Qltb_lt in Hg. by repeat apply conj.
Qed.








Lemma matchMatrix_addCandidate score i j addI addJ s :
  matchMatrix_ (addCandidate width_ height_ score i j addI addJ s) = matchMatrix_ s.
Proof. by destruct (addCandidate_same_evals width_ height_ score i j addI addJ s). Qed.

Lemma matchMatrix_Lmm_prune minScore s :
  matchMatrix_ (Lmm.prune width_ height_ minScore s) = matchMatrix_ s.
Proof. by destruct (Lmm_prune_same_evals width_ height_ minScore s). Qed.

Lemma matchMatrix_Rev2_prune minScore s :
  matchMatrix_ (Rev2.prune width_ height_ minScore s) = matchMatrix_ s.
Proof. by destruct (Rev2_prune_same_evals width_ height_ minScore s). Qed.


End PopBound.

Section PopStep.

Variables width_ height_ : Z.
Variable matcher_ : Matcher.
Variable branchThreshold_ : Q.




End PopStep.

(** ** Scenarios *)

(** [matcher(i, j) = 1 if i == j else 0] *)
Definition identity_matcher : Matcher := fun i j => if i =? j then 1%Q else 0%Q.

(** * Properties *)

(** C10.  Every invocation of the matcher has in-range arguments: in every
    state of an engine of either revision, each recorded call [(i, j)] has
    [i < W] and [j < H]. *)
Theorem C10_matcher_arguments_in_range r W H matcher thr s :
  0 < W -> 0 < H -> engine_state r W H matcher thr s ->
  Forall (fun p => 0 <= p.1 < W /\ 0 <= p.2 < H) (calls s).
Proof.
  intros HW HH Hs.
  by destruct (engine_state_ok _ _ _ _ _ _ HW HH Hs) as (_ & Hr & _).
Qed.

Lemma C10_matcher_arguments_in_range_witness :
  exists s,
    call_step (Lmm.step 3 3 identity_matcher 1) 3 (construct 3 3) = Done s /\
    calls s = [(2, 2); (1, 1); (0, 0)] /\
    Forall (fun p => 0 <= p.1 < 3 /\ 0 <= p.2 < 3) (calls s).
Proof.
  eexists. split; [vm_compute; reflexivity|]. split; [reflexivity|].
  apply (C10_matcher_arguments_in_range lmm_cpp 3 3 identity_matcher 1);
    [lia | lia |].
  eapply call_step_reachable with (n := 3%nat) (s := construct 3 3);
    [constructor | vm_compute; reflexivity].
Defined.

(** C8.  In every run the matcher is invoked at most once for each pair
    [(i, j)], and [numEvals], which counts the invocations, is at most
    [W * H].  The matcher is one that never answers [-1], the mark of an
    unevaluated cell; every matcher with values in [[0, 1]] is such a one
    ([matcher_contract_never_unevaluated]). *)
Theorem C8_matcher_called_at_most_once r W H matcher thr s :
  0 < W -> 0 < H -> never_unevaluated W H matcher ->
  engine_state r W H matcher thr s ->
  NoDup (calls s) /\ numEvals_ s = Z.of_nat (length (calls s)) /\
  numEvals_ s <= W * H.
Proof.
  intros HW HH Hc Hs.
  destruct (engine_state_ok _ _ _ _ _ _ HW HH Hs) as (_ & _ & Hsz & Hfill).
  specialize (Hfill Hc).
  pose proof (calls_fill_length _ _ Hfill) as Hle.
  destruct Hfill as (Hnd & _ & Hn).
  split; [by eapply NoDup_fmap_1|]. split; [done|].
  rewrite Hn. rewrite Hsz in Hle.
  assert (u32 (W * H) <= W * H) by (unfold u32; apply Z.mod_le; lia).
  pose proof (u32_range (W * H)). lia.
Qed.

Lemma C8_matcher_called_at_most_once_witness :
  exists s,
    call_step (Rev2.step 3 3 identity_matcher 1) 3 (construct 3 3) = Done s /\
    NoDup (calls s) /\ numEvals_ s = Z.of_nat (length (calls s)) /\
    numEvals_ s <= 3 * 3.
Proof.
  eexists. split; [vm_compute; reflexivity|].
  apply (C8_matcher_called_at_most_once slow_prune_rev 3 3 identity_matcher 1);
    [lia | lia | |].
  - apply matcher_contract_never_unevaluated. intros i j _ _.
    unfold identity_matcher. by destruct (i =? j).
  - eapply call_step_reachable with (n := 3%nat) (s := construct 3 3);
      [constructor | vm_compute; reflexivity].
Defined.




(** ** Paths through the matrix *)

(** Index pairs inside the [W x H] matrix, strictly increasing in both
    coordinates. *)
Fixpoint monotone_path (W H : Z) (P : list (Z * Z)) : bool :=
  match P with
  | [] => true
  | (i, j) :: rest =>
      (0 <=? i) && (i <? W) && (0 <=? j) && (j <? H) &&
      match rest with
      | [] => true
      | (i', j') :: _ => (i <? i') && (j <? j')
      end && monotone_path W H rest
  end.

(** [S(P)]: the sum of the matcher's values over the points of [P]. *)
Definition path_score (matcher : Matcher) (P : list (Z * Z)) : Q :=
  foldr (fun p acc => (matcher p.1 p.2 + acc)%Q) 0%Q P.

(** The sum of [matchVal] over returned matches. *)
Definition sum_matchVal (ms : list ResultMatch) : Q :=
  foldr (fun r acc => (matchVal r + acc)%Q) 0%Q ms.

(** [1] at the listed pairs, [0] elsewhere. *)
Definition matcher_of (ones : list (Z * Z)) : Matcher :=
  fun i j => if existsb (fun p => (p.1 =? i) && (p.2 =? j)) ones then 1%Q else 0%Q.

(** C4.  [match(i, j)] addresses cell [width * i + j] of the [W * H] cells.
    For [W = 3], [H = 2] the in-range pair [(2, 1)] is cell [7] of [6], and a
    run on the zero matcher reads outside the matrix; for [W = 2], [H = 3]
    the in-range pairs [(0, 2)] and [(1, 0)] are both cell [2]. *)
Theorem C4_match_index_leaves_or_shares_cells :
  (match_index 3 2 1 = 7 /\ length (matchMatrix_ (construct 3 2)) = 6%nat /\
   match_get 3 (construct 3 2) 2 1 = OutOfBounds) /\
  (forall u raw,
     Lmm.run 3 2 (matcher_of []) 1 u raw 20 (construct 3 2) = OutOfBounds) /\
  (forall raw,
     Rev2.run 3 2 (matcher_of []) 1 raw 20 (construct 3 2) = OutOfBounds) /\
  (match_index 2 0 2 = 2 /\ match_index 2 1 0 = 2).
Proof. repeat apply conj; intros; vm_compute; reflexivity. Qed.

(** C1.  [W = 2], [H = 3], threshold [1], the matcher [1] at [(1, 0)] and [0]
    elsewhere.  The path [[(1, 0)]] scores [1]; both revisions end with best
    score [0]: cell [(0, 2)], evaluated first, is the cell of [(1, 0)], and
    the matcher is never called for [(1, 0)]. *)
Theorem C1_run_misses_the_best_path :
  let matcher := matcher_of [(1, 0)] in
  monotone_path 2 3 [(1, 0)] = true /\
  path_score matcher [(1, 0)] = 1%Q /\
  (forall raw,
     Rev2.run 2 3 matcher 1 raw 20 (construct 2 3)
     = Done {| totalMatch := 0; matches := [] |}) /\
  (exists s,
     Lmm.steps 2 3 matcher 1 20 (construct 2 3) = Done s /\
     bestMatch_ s = 0%Q /\
     calls s = [(1, 1); (1, 2); (0, 2); (0, 1); (0, 0)]).
Proof.
  cbn zeta. repeat apply conj; intros; try (eexists; repeat apply conj);
    vm_compute; reflexivity.
Qed.

(** C2.  [W = 2], [H = 4], threshold [1], the matcher [1] at [(0, 0)] and
    [(1, 3)].  The later revision returns [totalMatch = 2] with the single
    match [(1, 3, 1)]; [lmm.cpp] returns a slot it never wrote and the
    unevaluated cell [(0, 2)], and leaves [totalMatch] unassigned. *)
Theorem C2_total_is_not_the_sum_of_matches :
  let matcher := matcher_of [(0, 0); (1, 3)] in
  (forall raw,
     exists res,
       Rev2.run 2 4 matcher 1 raw 20 (construct 2 4) = Done res /\
       totalMatch res = 2%Q /\
       matches res = [{| rm_i := 1; rm_j := 3; matchVal := 1 |}] /\
       sum_matchVal (matches res) = 1%Q) /\
  (forall u raw,
     Lmm.run 2 4 matcher 1 u raw 20 (construct 2 4)
     = Done {| totalMatch := u;
               matches := [raw 0%nat; {| rm_i := 0; rm_j := 2; matchVal := -1 |}] |}).
Proof.
  cbn zeta. split; intros; [eexists; repeat apply conj|]; vm_compute; reflexivity.
Qed.

(** C3.  The identity scenario, [W = H = 3], threshold [1].  [run] of
    [lmm.cpp] returns [totalMatch] unassigned and the matches
    [[raw 0; (0,0,1); (1,1,1)]]: an unwritten slot first, the terminal cell
    [(2, 2)] missing.  [run] of the later revision returns [totalMatch = 3]
    and [[(0,0,1); (1,1,1); (2,2,1)]]. *)
Theorem C3_identity_scenario :
  (forall u raw,
     Lmm.run 3 3 identity_matcher 1 u raw 20 (construct 3 3)
     = Done {| totalMatch := u;
               matches := [raw 0%nat;
                           {| rm_i := 0; rm_j := 0; matchVal := 1 |};
                           {| rm_i := 1; rm_j := 1; matchVal := 1 |}] |}) /\
  (forall raw,
     Rev2.run 3 3 identity_matcher 1 raw 20 (construct 3 3)
     = Done {| totalMatch := 3;
               matches := [{| rm_i := 0; rm_j := 0; matchVal := 1 |};
                           {| rm_i := 1; rm_j := 1; matchVal := 1 |};
                           {| rm_i := 2; rm_j := 2; matchVal := 1 |}] |}).
Proof. split; intros; vm_compute; reflexivity. Qed.

(** C6.  [W = H = 2], threshold [1], the matcher [1] at [(1, 1)] only.  [run]
    of [lmm.cpp] returns an unwritten slot and the match [(0, 0, 0)], whose
    value is the [0] of a cell that did not match; the assertion
    [diag.eval > 0.f] of its walk does not hold there.  [run] of the later
    revision returns the one match [(1, 1, 1)]. *)
Theorem C6_match_value_zero_returned :
  (forall u raw,
     Lmm.run 2 2 (matcher_of [(1, 1)]) 1 u raw 20 (construct 2 2)
     = Done {| totalMatch := u;
               matches := [raw 0%nat; {| rm_i := 0; rm_j := 0; matchVal := 0 |}] |}) /\
  (forall raw,
     Rev2.run 2 2 (matcher_of [(1, 1)]) 1 raw 20 (construct 2 2)
     = Done {| totalMatch := 1;
               matches := [{| rm_i := 1; rm_j := 1; matchVal := 1 |}] |}).
Proof. split; intros; vm_compute; reflexivity. Qed.

(** C9.  [run] of [lmm.cpp] never assigns [res.totalMatch] and returns a slot
    of the result buffer that it never wrote: the same engine returns what the
    memory held, here [0] or [1]. *)
Theorem C9_result_depends_on_unassigned_memory :
  forall raw,
    Lmm.run 3 3 identity_matcher 1 0 raw 20 (construct 3 3)
    = Done {| totalMatch := 0;
              matches := [raw 0%nat;
                          {| rm_i := 0; rm_j := 0; matchVal := 1 |};
                          {| rm_i := 1; rm_j := 1; matchVal := 1 |}] |} /\
    Lmm.run 3 3 identity_matcher 1 1 raw 20 (construct 3 3)
    = Done {| totalMatch := 1;
              matches := [raw 0%nat;
                          {| rm_i := 0; rm_j := 0; matchVal := 1 |};
                          {| rm_i := 1; rm_j := 1; matchVal := 1 |}] |}.
Proof. intros. split; vm_compute; reflexivity. Qed.



(** [1] at [(0, 1)] and [(1, 0)], [0] elsewhere. *)
Definition antidiagonal_matcher : Matcher := matcher_of [(0, 1); (1, 0)].




(** Under the [prune] of [lmm.cpp] the upper bound itself can fall below
    [bestMatch_]: [W = H = 3], matches [127/128] at [(0, 0)], [1/128] at
    [(1, 1)] and [1] at [(2, 2)].  After three calls of [step] the best score
    is [2]; the candidate [(1, 2, 127/128)], of upper bound [255/128], is
    still queued, in front of two tail nodes of upper bound [2] and lower
    metric, and is popped next. *)
Lemma Lmm_upper_bound_below_bestMatch :
  let matcher : Matcher := fun i j =>
    if (i =? 0) && (j =? 0) then (127 # 128)%Q
    else if (i =? 1) && (j =? 1) then (1 # 128)%Q
    else if (i =? 2) && (j =? 2) then 1%Q else 0%Q in
  let c := {| cand_i := 1; cand_j := 2; cand_score := (127 # 128)%Q |} in
  exists s rest,
    call_step (Lmm.step 3 3 matcher 1) 3 (construct 3 3) = Done s /\
    queue_ s = c :: rest /\
    Qeq_bool (bestMatch_ s) 2 = true /\
    Qltb (maxPossibleScore 3 3 (cand_score c) (cand_i c) (cand_j c)) (bestMatch_ s)
    = true.
Proof.
  cbn zeta. do 2 eexists. repeat apply conj; vm_compute; reflexivity.
Qed.

(** * The rest of the code *)

(** ** [alignPOT] ([common.hpp]) *)

(** [template<typename A, typename B> constexpr A alignPOT(A offset, B
    alignment)], at [A = B =] an unsigned type of [w] bits:
    [(offset + alignment - 1) & ~(alignment - 1)]. *)
Definition alignPOT (w offset alignment : Z) : Z :=
  Z.land ((offset + alignment - 1) mod 2 ^ w)
         (Z.lnot ((alignment - 1) mod 2 ^ w) mod 2 ^ w).

(** The asserted [(alignment & (alignment - 1)) == 0u] of a non-zero
    [alignment]: a power of two. *)
Lemma power_of_two (a : Z) :
  0 < a -> Z.land a (a - 1) = 0 -> a = 2 ^ Z.log2 a.
Proof.
  intros Ha Hland.
  destruct (Z.log2_spec a Ha) as [Hlo Hhi].
  destruct (decide (a = 2 ^ Z.log2 a)) as [|Hne]; [done|exfalso].
  assert (0 < 2 ^ Z.log2 a) by (apply Z.pow_pos_nonneg; [lia | apply Z.log2_nonneg]).
  assert (Hlog : Z.log2 (a - 1) = Z.log2 a).
  { apply Z.log2_unique; [apply Z.log2_nonneg | lia]. }
  assert (Hbit : Z.testbit (Z.land a (a - 1)) (Z.log2 a) = true).
  { rewrite Z.land_spec, Z.bit_log2 by lia.
    rewrite <- Hlog. rewrite Z.bit_log2 by lia. done. }
  rewrite Hland, Z.bits_0 in Hbit. done.
Qed.

Lemma alignPOT_pow2 (w k x : Z) :
  0 <= k < w -> 0 <= x < 2 ^ w ->
  Z.land x (Z.lnot ((2 ^ k - 1) mod 2 ^ w) mod 2 ^ w) = 2 ^ k * (x / 2 ^ k).
Proof.
  intros Hk Hx.
  assert (2 ^ k < 2 ^ w) by (apply Z.pow_lt_mono_r; lia).
  assert (0 < 2 ^ k) by (apply Z.pow_pos_nonneg; lia).
  rewrite (Z.mod_small (2 ^ k - 1)) by lia.
  replace (2 ^ k - 1) with (Z.ones k) by (rewrite Z.ones_equiv; lia).
  rewrite <- (Z.land_ones (Z.lnot _)) by lia.
  rewrite Z.mul_comm, <- Z.shiftl_mul_pow2, <- Z.shiftr_div_pow2 by lia.
  rewrite <- Z.ldiff_ones_r by lia.
  rewrite <- (Z.mod_small x (2 ^ w)) at 2 by lia.
  rewrite <- Z.land_ones by lia.
  apply Z.bits_inj'. intros n Hn.
  rewrite !Z.land_spec, !Z.ldiff_spec, Z.land_spec, Z.lnot_spec by lia.
  destruct (Z.testbit x n), (Z.testbit (Z.ones k) n), (Z.testbit (Z.ones w) n); done.
Qed.

Lemma power_of_two_fits (w a : Z) :
  0 < a < 2 ^ w -> Z.land a (a - 1) = 0 ->
  exists k, 0 <= k < w /\ a = 2 ^ k.
Proof.
  intros Ha Hpot. exists (Z.log2 a).
  pose proof (power_of_two a ltac:(lia) Hpot) as Hk.
  pose proof (Z.log2_nonneg a). split; [|done]. split; [done|].
  destruct (Z.lt_ge_cases (Z.log2 a) w) as [|Hge]; [done|].
  assert (2 ^ w <= 2 ^ Z.log2 a) by (apply Z.pow_le_mono_r; lia). lia.
Qed.

(** X1.  For a power-of-two [alignment] (the asserted
    [(alignment & (alignment - 1)) == 0], [alignment != 0]) and an [offset]
    that can be rounded up without overflow, [alignPOT] returns the least
    multiple of [alignment] that is not below [offset]. *)
Theorem alignPOT_least_multiple w offset alignment :
  0 <= offset -> 0 < alignment < 2 ^ w ->
  Z.land alignment (alignment - 1) = 0 ->
  offset + alignment - 1 < 2 ^ w ->
  alignPOT w offset alignment mod alignment = 0 /\
  offset <= alignPOT w offset alignment < offset + alignment.
Proof.
  intros Ho Ha Hpot Hfit.
  destruct (power_of_two_fits w alignment Ha Hpot) as (k & Hk & ->).
  assert (Heq : alignPOT w offset (2 ^ k)
                = 2 ^ k * ((offset + 2 ^ k - 1) / 2 ^ k)).
  { unfold alignPOT. rewrite (Z.mod_small (offset + 2 ^ k - 1)) by lia.
    apply alignPOT_pow2; lia. }
  rewrite Heq. split.
  - rewrite Z.mul_comm. apply Z_mod_mult.
  - pose proof (Z.mul_div_le (offset + 2 ^ k - 1) (2 ^ k) ltac:(lia)).
    pose proof (Z.mul_succ_div_gt (offset + 2 ^ k - 1) (2 ^ k) ltac:(lia)).
    lia.
Qed.

Lemma alignPOT_least_multiple_witness :
  alignPOT 32 13 8 = 16 /\
  alignPOT 32 13 8 mod 8 = 0 /\ 13 <= alignPOT 32 13 8 < 13 + 8.
Proof.
  split; [reflexivity|].
  apply (alignPOT_least_multiple 32 13 8); [lia | lia | reflexivity | lia].
Defined.

(** X2.  When [offset + alignment - 1] does not fit the
    [w]-bit type, the sum wraps around and [alignPOT] returns [0], which is
    below [offset]. *)
Theorem alignPOT_overflow_is_zero w offset alignment :
  0 <= offset < 2 ^ w -> 0 < alignment < 2 ^ w ->
  Z.land alignment (alignment - 1) = 0 ->
  2 ^ w <= offset + alignment - 1 ->
  alignPOT w offset alignment = 0.
Proof.
  intros Ho Ha Hpot Hover.
  destruct (power_of_two_fits w alignment Ha Hpot) as (k & Hk & ->).
  unfold alignPOT.
  assert (Hx : (offset + 2 ^ k - 1) mod 2 ^ w = offset + 2 ^ k - 1 - 2 ^ w).
  { symmetry. apply Z.mod_unique with (q := 1); lia. }
  rewrite Hx, alignPOT_pow2 by lia.
  rewrite Z.div_small by lia. lia.
Qed.

Lemma alignPOT_overflow_is_zero_witness :
  alignPOT 32 (2 ^ 32 - 3) 16 = 0.
Proof.
  apply alignPOT_overflow_is_zero; [lia | lia | reflexivity | lia].
Defined.

(** ** What [prune] removes *)

Section Prune.

Variables width_ height_ : Z.

(** [maxPossibleScore(it->score, it->i, it->j) < minScore] does not hold. *)
Definition reaches (minScore : Q) (c : Candidate) : bool :=
  Qle_bool minScore (upperBound width_ height_ c).

Lemma Qltb_negb (x y : Q) : Qltb x y = negb (Qle_bool y x).
Proof. reflexivity. Qed.

Lemma Lmm_prune_tail_spec minScore rq fl :
  exists removed,
    rq = removed ++ (Lmm.prune_tail width_ height_ minScore rq fl).1 /\
    (Lmm.prune_tail width_ height_ minScore rq fl).2 = rev removed ++ fl /\
    Forall (fun c => reaches minScore c = false) removed /\
    (forall c, head (Lmm.prune_tail width_ height_ minScore rq fl).1 = Some c ->
               reaches minScore c = true).
Proof.
  revert fl. induction rq as [|it prev IH]; intros fl; simpl.
  - exists []. by repeat split.
  - destruct (Qltb _ _) eqn:Hlow.
    + destruct (IH (it :: fl)) as (removed & Hrq & Hfl & Hlowr & Hhead).
      exists (it :: removed). repeat split.
      * simpl. by rewrite <- Hrq.
      * rewrite Hfl. simpl. by rewrite <- app_assoc.
      * constructor; [|done]. unfold reaches, upperBound.
        rewrite Qltb_negb in Hlow. by apply negb_true_iff in Hlow.
      * done.
    + exists []. repeat split; [constructor|]. simpl. intros c [= <-].
      unfold reaches, upperBound. rewrite Qltb_negb in Hlow.
      by apply negb_false_iff in Hlow.
Qed.

Lemma Rev2_prune_scan_perm minScore rq fl :
  (Rev2.prune_scan width_ height_ minScore rq fl).1
    ++ (Rev2.prune_scan width_ height_ minScore rq fl).2 ≡ₚ rq ++ fl.
Proof.
  revert fl. induction rq as [|it prev IH]; intros fl; simpl; [done|].
  destruct (Qle_bool minScore (cand_score it)).
  - destruct (Qltb _ _); simpl; [|done]. by rewrite Permutation_middle.
  - specialize (IH (if Qltb (maxPossibleScore width_ height_ (cand_score it)
                               (cand_i it) (cand_j it)) minScore
                    then it :: fl else fl)).
    destruct (Rev2.prune_scan _ _ _ _ _) as [prev' fl']; simpl in *.
    destruct (Qltb _ _); simpl.
    + rewrite IH. by rewrite Permutation_middle.
    + by rewrite IH.
Qed.


End Prune.



Lemma last_rev {A} (l : list A) : last (rev l) = head l.
Proof. destruct l as [|a l]; simpl; [done|]. apply last_snoc. Qed.

Lemma Lmm_prune_spec W H minScore s :
  exists removed,
    queue_ s = queue_ (Lmm.prune W H minScore s) ++ removed /\
    freeList_ (Lmm.prune W H minScore s) = removed ++ freeList_ s /\
    Forall (fun c => reaches W H minScore c = false) removed /\
    (forall c, last (queue_ (Lmm.prune W H minScore s)) = Some c ->
               reaches W H minScore c = true).
Proof.
  unfold Lmm.prune.
  destruct (Lmm_prune_tail_spec W H minScore (rev (queue_ s)) (freeList_ s))
    as (removed & Hrq & Hfl & Hlow & Hhead).
  destruct (Lmm.prune_tail _ _ _ _ _) as [rq fl]; simpl in *.
  exists (rev removed). repeat split.
  - rewrite <- rev_app_distr, <- Hrq. by rewrite rev_involutive.
  - done.
  - by apply Forall_rev.
  - intros c Hc. apply Hhead. by rewrite last_rev in Hc.
Qed.

(** X4.  [prune(minScore)] of [lmm.cpp] removes the longest
    run of candidates at the tail of the queue whose upper bound is below
    [minScore], and nothing else: the queue was what it leaves followed by
    [removed], every node of [removed] is below [minScore], the last node
    left is not; the removed nodes are put in front of the free list. *)
Theorem Lmm_prune_removes_low_tail W H minScore s :
  exists removed,
    queue_ s = queue_ (Lmm.prune W H minScore s) ++ removed /\
    freeList_ (Lmm.prune W H minScore s) = removed ++ freeList_ s /\
    Forall (fun c => reaches W H minScore c = false) removed /\
    (forall c, last (queue_ (Lmm.prune W H minScore s)) = Some c ->
               reaches W H minScore c = true).
Proof. apply Lmm_prune_spec. Qed.

Lemma prune_of_perm r W H minScore s :
  queue_ (prune_of W H r minScore s) ++ freeList_ (prune_of W H r minScore s)
  ≡ₚ queue_ s ++ freeList_ s.
Proof.
  destruct r; simpl.
  - destruct (Lmm_prune_spec W H minScore s) as (removed & Hq & Hfl & _).
    rewrite Hfl, Hq. by rewrite <- app_assoc.
  - unfold Rev2.prune.
    pose proof (Rev2_prune_scan_perm W H minScore (rev (queue_ s)) (freeList_ s)) as Hp.
    destruct (Rev2.prune_scan _ _ _ _ _) as [rq fl]; simpl in *.
    rewrite <- (Permutation_rev rq). rewrite Hp.
    by rewrite <- (Permutation_rev (queue_ s)).
Qed.

(** X5.  In either revision [prune] loses no node and makes
    none: the nodes of the queue and of the free list together are the same
    before and after. *)
Theorem prune_keeps_every_node r W H minScore s :
  queue_ (prune_of W H r minScore s) ++ freeList_ (prune_of W H r minScore s)
  ≡ₚ queue_ s ++ freeList_ s.
Proof. apply prune_of_perm. Qed.

(** ** One call of [step], taken apart *)

Section StepView.

Variables width_ height_ : Z.
Variable matcher_ : Matcher.
Variable branchThreshold_ : Q.

(** The end of [step]: the diagonal successor and the [prune] when the cell
    matches, the two side successors when its value is below the
    threshold. *)
Definition successors (r : revision) (cand : Candidate) (e : Q)
  (s : LazyMatrixMarch) : LazyMatrixMarch :=
  let after_diag :=
    if Qltb 0 e
    then prune_of width_ height_ r (cand_score cand + e)
           (addCandidate width_ height_ (cand_score cand + e)
              (cand_i cand) (cand_j cand) 1 1 s)
    else s in
  if Qltb e branchThreshold_
  then addCandidate width_ height_ (cand_score cand) (cand_i cand) (cand_j cand) 0 1
         (addCandidate width_ height_ (cand_score cand) (cand_i cand) (cand_j cand) 1 0
            after_diag)
  else after_diag.

(** The place of the candidate's cell in [matchMatrix_]. *)
Definition cell_index (c : Candidate) : nat :=
  Z.to_nat (match_index width_ (cand_i c) (cand_j c)).

(** [s1] is [s] after [cand] was popped, with matrix [mm]. *)
Definition popped (s : LazyMatrixMarch) (rest : list Candidate)
  (mm : list EvalMatch) (s1 : LazyMatrixMarch) : Prop :=
  matchMatrix_ s1 = mm /\ queue_ s1 = rest /\
  bestMatch_ s1 = bestMatch_ s /\ bestRes_ s1 = bestRes_ s.

(** The match value of the popped candidate's cell: the stored one, or the
    matcher's at the first visit. *)
Definition cell_eval (m : EvalMatch) (cand : Candidate) : Q :=
  if Qeq_bool (eval m) (-1) then matcher_ (cand_i cand) (cand_j cand) else eval m.

Lemma Rev2_step_view s more s' :
  Rev2.step width_ height_ matcher_ branchThreshold_ s = Done (more, s') ->
  match queue_ s with
  | [] => more = false /\ s' = s
  | cand :: rest =>
      more = true /\
      exists m, matchMatrix_ s !! cell_index cand = Some m /\
        if Qle_bool (cand_score cand) (best m)
        then popped s rest (matchMatrix_ s) s'
        else
          exists s1,
            popped s rest
              (<[cell_index cand := {| eval := cell_eval m cand;
                                       best := cand_score cand |}]> (matchMatrix_ s)) s1 /\
            s' = successors slow_prune_rev cand (cell_eval m cand) s1
  end.
Proof.
  unfold Rev2.step.
  destruct (queue_ s) as [|cand rest] eqn:Hqs; [by intros [= <- <-]|].
  cbn zeta. intros (m & Hget%match_get_Done & Hstep)%bind_Done.
  simpl in Hget. unfold cell_index.
  destruct (Qle_bool _ _) eqn:Hskip.
  - injection Hstep as <- <-. split; [done|]. exists m. split; [done|].
    by rewrite Hskip.
  - apply bind_Done in Hstep as (sa & ->%match_set_Done & Hstep).
    apply bind_Done in Hstep as ([e sb] & Heval & [= <- <-]).
    split; [done|]. exists m. split; [done|]. rewrite Hskip.
    unfold cell_eval. destruct (Qeq_bool (eval m) (-1)).
    + apply bind_Done in Heval as (s2 & ->%match_set_Done & [= <- <-]).
      eexists. split; [|reflexivity]. unfold popped; simpl.
      by rewrite list_insert_insert_eq.
    + injection Heval as <- <-. eexists. split; [|reflexivity]. done.
Qed.

Lemma Lmm_step_view s more s' :
  Lmm.step width_ height_ matcher_ branchThreshold_ s = Done (more, s') ->
  match queue_ s with
  | [] => more = false /\ s' = s
  | cand :: rest =>
      more = true /\
      exists m, matchMatrix_ s !! cell_index cand = Some m /\
        if Qle_bool (cand_score cand + 1) (best m)
        then popped s rest (matchMatrix_ s) s'
        else if Qltb (best m) (cand_score cand + cell_eval m cand)
        then
          exists s1,
            popped s rest
              (<[cell_index cand := {| eval := cell_eval m cand;
                                       best := cand_score cand + cell_eval m cand |}]>
                 (matchMatrix_ s)) s1 /\
            s' = successors lmm_cpp cand (cell_eval m cand) s1
        else
          popped s rest
            (if Qeq_bool (eval m) (-1)
             then <[cell_index cand := {| eval := cell_eval m cand; best := best m |}]>
                    (matchMatrix_ s)
             else matchMatrix_ s) s'
  end.
Proof.
  unfold Lmm.step.
  destruct (queue_ s) as [|cand rest] eqn:Hqs; [by intros [= <- <-]|].
  cbn zeta. intros (m & Hget%match_get_Done & Hstep)%bind_Done.
  simpl in Hget. unfold cell_index.
  destruct (Qle_bool _ _) eqn:Hskip.
  - injection Hstep as <- <-. split; [done|]. exists m. split; [done|].
    by rewrite Hskip.
  - apply bind_Done in Hstep as ([m0 s0] & Heval & Hstep).
    split; [by destruct (Qltb (best m0) _);
              [apply bind_Done in Hstep as (? & _ & [= <- _]) | injection Hstep as <- _]|].
    exists m. split; [done|]. rewrite Hskip.
    unfold cell_eval. destruct (Qeq_bool (eval m) (-1)).
    + apply bind_Done in Heval as (s2 & ->%match_set_Done & [= <- <-]). simpl in *.
      destruct (Qltb (best m) _).
      * apply bind_Done in Hstep as (s1 & ->%match_set_Done & [= <- <-]).
        eexists. split; [|reflexivity]. unfold popped; simpl.
        by rewrite list_insert_insert_eq.
      * by injection Hstep as <- <-.
    + injection Heval as <- <-.
      destruct (Qltb (best m) _).
      * apply bind_Done in Hstep as (s1 & ->%match_set_Done & [= <- <-]).
        eexists. split; [|reflexivity]. done.
      * by injection Hstep as <- <-.
Qed.

End StepView.

(** ** The best score and its cell *)

Section BestScore.

Variables width_ height_ : Z.
Variable matcher_ : Matcher.
Variable branchThreshold_ : Q.

Lemma successors_ind (P : LazyMatrixMarch -> Prop) r cand e s :
  (forall score addI addJ s,
     0 <= addI <= 1 -> 0 <= addJ <= 1 -> 1 <= addI + addJ -> P s ->
     P (addCandidate width_ height_ score (cand_i cand) (cand_j cand) addI addJ s)) ->
  (forall ms s, P s -> P (prune_of width_ height_ r ms s)) ->
  P s -> P (successors width_ height_ branchThreshold_ r cand e s).
Proof.
  intros Hadd Hprune Hs. unfold successors.
  destruct (Qltb 0 e), (Qltb e branchThreshold_);
    repeat first [apply Hadd; [lia | lia | lia |] | apply Hprune]; done.
Qed.

(** [bestRes_] names a cell of the matrix. *)
Definition bestRes_ok (s : LazyMatrixMarch) : Prop :=
  in_range width_ height_ (bestRes_ s).1 (bestRes_ s).2.

Lemma prune_of_bestRes r minScore s :
  bestRes_ (prune_of width_ height_ r minScore s) = bestRes_ s.
Proof.
  destruct r; simpl; [unfold Lmm.prune | unfold Rev2.prune];
    by destruct (_ : list Candidate * list Candidate).
Qed.

Lemma addCandidate_best score i j addI addJ s :
  in_range width_ height_ i j -> bestRes_ok s ->
  bestRes_ok (addCandidate width_ height_ score i j addI addJ s) /\
  (bestMatch_ s <= bestMatch_ (addCandidate width_ height_ score i j addI addJ s))%Q.
Proof.
  intros Hin Hok. unfold addCandidate.
  destruct (_ || _).
  - destruct (Qltb _ _) eqn:Hlt; simpl; [|split; [done | lra]].
    apply Qltb_lt in Hlt. split; [done | lra].
  - destruct (Qltb _ _); simpl; split; try done; lra.
Qed.

Lemma successors_best r cand e s :
  cand_in_range width_ height_ cand -> bestRes_ok s ->
  bestRes_ok (successors width_ height_ branchThreshold_ r cand e s) /\
  (bestMatch_ s <= bestMatch_ (successors width_ height_ branchThreshold_ r cand e s))%Q.
Proof.
  intros Hin Hok.
  apply (successors_ind
           (fun s' => bestRes_ok s' /\ (bestMatch_ s <= bestMatch_ s')%Q)).
  - intros score addI addJ s0 _ _ _ [Hok0 Hle].
    destruct (addCandidate_best score (cand_i cand) (cand_j cand) addI addJ s0 Hin Hok0).
    split; [done | lra].
  - intros ms s0 [Hok0 Hle]. unfold bestRes_ok.
    by rewrite prune_of_bestRes, prune_of_bestMatch.
  - split; [done | lra].
Qed.

Lemma popped_best s rest mm s1 :
  popped s rest mm s1 -> bestRes_ok s ->
  bestRes_ok s1 /\ (bestMatch_ s <= bestMatch_ s1)%Q.
Proof.
  intros (_ & _ & Hb & Hr) Hok. unfold bestRes_ok. rewrite Hr, Hb. split; [done | lra].
Qed.

Lemma step_best r s more s' :
  queue_ok width_ height_ s -> bestRes_ok s ->
  step_of r width_ height_ matcher_ branchThreshold_ s = Done (more, s') ->
  bestRes_ok s' /\ (bestMatch_ s <= bestMatch_ s')%Q.
Proof.
  intros [Hr _] Hok Hstep.
  destruct r; simpl in Hstep;
    [apply Lmm_step_view in Hstep | apply Rev2_step_view in Hstep];
    (destruct (queue_ s) as [|cand rest]; [destruct Hstep as [_ ->]; split; [done | lra]|]);
    apply Forall_cons in Hr as [Hin _];
    destruct Hstep as (_ & m & _ & Hstep).
  - destruct (Qle_bool _ _); [by eapply popped_best|].
    destruct (Qltb _ _); [|by eapply popped_best].
    destruct Hstep as (s1 & Hpop & ->).
    destruct (popped_best _ _ _ _ Hpop Hok) as [Hok1 Hle1].
    destruct (successors_best lmm_cpp cand (cell_eval matcher_ m cand) s1 Hin Hok1).
    split; [done | lra].
  - destruct (Qle_bool _ _); [by eapply popped_best|].
    destruct Hstep as (s1 & Hpop & ->).
    destruct (popped_best _ _ _ _ Hpop Hok) as [Hok1 Hle1].
    destruct (successors_best slow_prune_rev cand (cell_eval matcher_ m cand) s1 Hin Hok1).
    split; [done | lra].
Qed.

End BestScore.

Lemma engine_state_bestRes_ok r W H matcher thr s :
  0 < W -> 0 < H -> engine_state r W H matcher thr s -> bestRes_ok W H s.
Proof.
  intros HW HH. induction 1 as [|s0 more0 s1 Hs0 IH Hstep0].
  - unfold bestRes_ok, in_range; simpl. lia.
  - eapply step_best; [|exact IH|exact Hstep0].
    by destruct (engine_state_ok r W H matcher thr s0 HW HH Hs0).
Qed.

(** X6.  A call of [step], in either revision, never lowers
    [bestMatch_], and [bestRes_] names a cell of the matrix afterwards. *)
Theorem bestMatch_never_decreases r W H matcher thr s more s' :
  0 < W -> 0 < H -> engine_state r W H matcher thr s ->
  step_of r W H matcher thr s = Done (more, s') ->
  (bestMatch_ s <= bestMatch_ s')%Q /\
  0 <= (bestRes_ s').1 < W /\ 0 <= (bestRes_ s').2 < H.
Proof.
  intros HW HH Hs Hstep.
  pose proof (engine_state_bestRes_ok r W H matcher thr s HW HH Hs) as Hok.
  destruct (engine_state_ok r W H matcher thr s HW HH Hs) as [Hq _].
  destruct (step_best W H matcher thr r s more s' Hq Hok Hstep) as [[Hi Hj] Hle].
  split; [done|]. split; lia.
Qed.

Lemma bestMatch_never_decreases_witness :
  exists s s',
    call_step (Rev2.step 2 2 antidiagonal_matcher 1) 1 (construct 2 2) = Done s /\
    Rev2.step 2 2 antidiagonal_matcher 1 s = Done (true, s') /\
    bestMatch_ s = (-1)%Q /\ bestMatch_ s' = 1%Q /\ bestRes_ s' = (0, 1) /\
    ((bestMatch_ s <= bestMatch_ s')%Q /\
     0 <= (bestRes_ s').1 < 2 /\ 0 <= (bestRes_ s').2 < 2).
Proof.
  do 2 eexists. split; [vm_compute; reflexivity|].
  split; [vm_compute; reflexivity|]. do 3 (split; [reflexivity|]).
  apply (bestMatch_never_decreases slow_prune_rev 2 2 antidiagonal_matcher 1 _ true);
    [lia | lia | | vm_compute; reflexivity].
  eapply call_step_reachable with (n := 1%nat) (s := construct 2 2);
    [constructor | vm_compute; reflexivity].
Defined.

(** ** The loop [while(step())] ends *)

Section Termination.

Variables width_ height_ : Z.
Variable matcher_ : Matcher.
Variable branchThreshold_ : Q.
Hypothesis HW : 0 < width_ < 2 ^ 32.
Hypothesis HH : 0 < height_ < 2 ^ 32.

(** A candidate weighs four times as much as any of its three successors. *)
Definition weight (c : Candidate) : Z :=
  4 ^ (width_ + height_ - cand_i c - cand_j c).

Definition queue_weight (q : list Candidate) : Z :=
  foldr (fun c acc => weight c + acc) 0 q.

Lemma weight_nonneg c : 0 <= weight c.
Proof. unfold weight. apply Z.pow_nonneg. lia. Qed.

Lemma queue_weight_nonneg q : 0 <= queue_weight q.
Proof.
  induction q as [|c q IH]; simpl; [lia|]. pose proof (weight_nonneg c). lia.
Qed.

Lemma queue_weight_perm q q' : q ≡ₚ q' -> queue_weight q = queue_weight q'.
Proof. induction 1; simpl; lia. Qed.

Lemma queue_weight_sublist q q' :
  q' `sublist_of` q -> queue_weight q' <= queue_weight q.
Proof.
  induction 1 as [|x l1 l2 Hsub IH|x l1 l2 Hsub IH]; simpl; [lia|lia|].
  pose proof (weight_nonneg x). lia.
Qed.

Lemma addCandidate_weight score i j addI addJ s :
  in_range width_ height_ i j ->
  0 <= addI <= 1 -> 0 <= addJ <= 1 -> 1 <= addI + addJ ->
  queue_weight (queue_ (addCandidate width_ height_ score i j addI addJ s))
  <= queue_weight (queue_ s) + 4 ^ (width_ + height_ - i - j - 1).
Proof.
  intros [Hi Hj] HaI HaJ Hadd.
  assert (0 <= 4 ^ (width_ + height_ - i - j - 1)) by (apply Z.pow_nonneg; lia).
  destruct (addCandidate_cases width_ height_ score i j addI addJ s)
    as [(Hq & _) | (Hq & _ & Hi' & Hj' & _)]; rewrite Hq; [lia|].
  rewrite (queue_weight_perm _ _ (insert_sorted_perm _ _ _ _)). simpl.
  unfold weight at 1; simpl. rewrite !u32_small by lia.
  assert (4 ^ (width_ + height_ - (i + addI) - (j + addJ))
          <= 4 ^ (width_ + height_ - i - j - 1))
    by (apply Z.pow_le_mono_r; lia).
  lia.
Qed.

Lemma successors_weight r cand e s :
  cand_in_range width_ height_ cand ->
  queue_weight (queue_ (successors width_ height_ branchThreshold_ r cand e s))
  < queue_weight (queue_ s) + weight cand.
Proof.
  intros Hin.
  set (w := 4 ^ (width_ + height_ - cand_i cand - cand_j cand - 1)).
  assert (Hw : weight cand = 4 * w).
  { unfold weight, w. destruct Hin.
    rewrite <- Z.pow_succ_r by lia. f_equal. lia. }
  assert (0 < w) by (destruct Hin; apply Z.pow_pos_nonneg; lia).
  assert (Hadd : forall score addI addJ s0,
            0 <= addI <= 1 -> 0 <= addJ <= 1 -> 1 <= addI + addJ ->
            queue_weight (queue_ (addCandidate width_ height_ score (cand_i cand)
                                    (cand_j cand) addI addJ s0))
            <= queue_weight (queue_ s0) + w).
  { intros. by apply addCandidate_weight. }
  assert (Hprune : forall ms s0,
            queue_weight (queue_ (prune_of width_ height_ r ms s0))
            <= queue_weight (queue_ s0)).
  { intros. apply queue_weight_sublist, prune_of_queue. }
  unfold successors.
  destruct (Qltb 0 e), (Qltb e branchThreshold_).
  - pose proof (Hadd (cand_score cand) 0 1
                  (addCandidate width_ height_ (cand_score cand) (cand_i cand) (cand_j cand) 1 0
                     (prune_of width_ height_ r (cand_score cand + e)
                        (addCandidate width_ height_ (cand_score cand + e)
                           (cand_i cand) (cand_j cand) 1 1 s)))
                  ltac:(lia) ltac:(lia) ltac:(lia)).
    pose proof (Hadd (cand_score cand) 1 0
                  (prune_of width_ height_ r (cand_score cand + e)
                     (addCandidate width_ height_ (cand_score cand + e)
                        (cand_i cand) (cand_j cand) 1 1 s))
                  ltac:(lia) ltac:(lia) ltac:(lia)).
    pose proof (Hprune (cand_score cand + e)%Q
                  (addCandidate width_ height_ (cand_score cand + e)
                     (cand_i cand) (cand_j cand) 1 1 s)).
    pose proof (Hadd (cand_score cand + e)%Q 1 1 s ltac:(lia) ltac:(lia) ltac:(lia)).
    lia.
  - pose proof (Hprune (cand_score cand + e)%Q
                  (addCandidate width_ height_ (cand_score cand + e)
                     (cand_i cand) (cand_j cand) 1 1 s)).
    pose proof (Hadd (cand_score cand + e)%Q 1 1 s ltac:(lia) ltac:(lia) ltac:(lia)).
    lia.
  - pose proof (Hadd (cand_score cand) 0 1
                  (addCandidate width_ height_ (cand_score cand) (cand_i cand) (cand_j cand) 1 0 s)
                  ltac:(lia) ltac:(lia) ltac:(lia)).
    pose proof (Hadd (cand_score cand) 1 0 s ltac:(lia) ltac:(lia) ltac:(lia)).
    lia.
  - lia.
Qed.

(** A call of [step] that returns [true] makes the queue lighter. *)
Lemma step_weight r s s' :
  queue_ok width_ height_ s ->
  step_of r width_ height_ matcher_ branchThreshold_ s = Done (true, s') ->
  queue_weight (queue_ s') < queue_weight (queue_ s).
Proof.
  intros [Hr _] Hstep.
  destruct r; simpl in Hstep;
    [apply Lmm_step_view in Hstep | apply Rev2_step_view in Hstep];
    (destruct (queue_ s) as [|cand rest]; [by destruct Hstep|]);
    apply Forall_cons in Hr as [Hin _];
    destruct Hstep as (_ & m & _ & Hstep); simpl;
    pose proof (successors_weight lmm_cpp cand (cell_eval matcher_ m cand)) as HwL;
    pose proof (successors_weight slow_prune_rev cand (cell_eval matcher_ m cand)) as HwR;
    assert (0 < weight cand) by (destruct Hin; apply Z.pow_pos_nonneg; lia).
  - destruct (Qle_bool _ _); [destruct Hstep as (_ & -> & _); lia|].
    destruct (Qltb _ _); [|destruct Hstep as (_ & -> & _); lia].
    destruct Hstep as (s1 & (_ & Hq & _) & ->).
    specialize (HwL s1 Hin). rewrite Hq in HwL. lia.
  - destruct (Qle_bool _ _); [destruct Hstep as (_ & -> & _); lia|].
    destruct Hstep as (s1 & (_ & Hq & _) & ->).
    specialize (HwR s1 Hin). rewrite Hq in HwR. lia.
Qed.

End Termination.

(** ** Accesses to the matrix when [width <= height] *)

Section InBounds.

Variables width_ height_ : Z.
Variable matcher_ : Matcher.
Variable branchThreshold_ : Q.
Hypothesis HW : 0 < width_.
Hypothesis Hle : width_ <= height_.
Hypothesis Hfit : width_ * height_ < 2 ^ 32.







End InBounds.

Lemma step_not_OutOfFuel r W H matcher thr s :
  step_of r W H matcher thr s <> OutOfFuel.
Proof.
  destruct r; simpl; [unfold Lmm.step | unfold Rev2.step];
    unfold match_get, match_set, span_get, span_set;
    repeat (first [case_match | progress simpl]; try done).
Qed.

(** ** [while(step())] in either revision *)

Definition steps_of (r : revision) (W H : Z) (matcher : Matcher) (thr : Q)
  : nat -> LazyMatrixMarch -> outcome LazyMatrixMarch :=
  match r with
  | lmm_cpp => Lmm.steps W H matcher thr
  | slow_prune_rev => Rev2.steps W H matcher thr
  end.

Lemma steps_of_S r W H matcher thr fuel s :
  steps_of r W H matcher thr (S fuel) s
  = step_of r W H matcher thr s ≫= fun x : bool * LazyMatrixMarch =>
      if x.1 then steps_of r W H matcher thr fuel x.2 else Done x.2.
Proof.
  destruct r; simpl; by destruct (_ : outcome (bool * LazyMatrixMarch)) as [[[] ?]| |].
Qed.

Lemma step_of_ok r W H matcher thr s more s' :
  engine_ok W H matcher s -> step_of r W H matcher thr s = Done (more, s') ->
  engine_ok W H matcher s'.
Proof. destruct r; simpl; [apply Lmm_step_ok | apply Rev2_step_ok]. Qed.

Lemma step_of_false r W H matcher thr s s' :
  step_of r W H matcher thr s = Done (false, s') -> queue_ s = [] /\ s' = s.
Proof.
  intros Hstep.
  destruct r; simpl in Hstep;
    [apply Lmm_step_view in Hstep | apply Rev2_step_view in Hstep];
    destruct (queue_ s); by destruct Hstep.
Qed.

Lemma steps_of_reachable r W H matcher thr init fuel s s' :
  reachable (step_of r W H matcher thr) init s ->
  steps_of r W H matcher thr fuel s = Done s' ->
  reachable (step_of r W H matcher thr) init s'.
Proof.
  destruct r; simpl; [apply Lmm_steps_reachable | apply Rev2_steps_reachable].
Qed.

Section Loop.

Variables (r : revision) (width_ height_ : Z) (matcher_ : Matcher).
Variable branchThreshold_ : Q.
Hypothesis HW : 0 < width_ < 2 ^ 32.
Hypothesis HH : 0 < height_ < 2 ^ 32.

(** With more fuel than the queue weighs, the loop ends: on an empty queue,
    or at a call of [step] that leaves the matrix. *)
Lemma steps_of_end fuel s :
  engine_ok width_ height_ matcher_ s ->
  queue_weight width_ height_ (queue_ s) < Z.of_nat fuel ->
  match steps_of r width_ height_ matcher_ branchThreshold_ fuel s with
  | Done s' => queue_ s' = []
  | OutOfBounds =>
      exists s1, engine_ok width_ height_ matcher_ s1 /\
                 step_of r width_ height_ matcher_ branchThreshold_ s1 = OutOfBounds
  | OutOfFuel => False
  end.
Proof.
  revert s. induction fuel as [|fuel IH]; intros s Hok Hw.
  - pose proof (queue_weight_nonneg width_ height_ (queue_ s)). lia.
  - rewrite steps_of_S.
    destruct (step_of r width_ height_ matcher_ branchThreshold_ s)
      as [[more s1]| |] eqn:Hstep; simpl.
    + destruct more.
      * apply IH; [by eapply step_of_ok|].
        pose proof (step_weight width_ height_ matcher_ branchThreshold_ HW HH r s s1
                      (proj1 Hok) Hstep). lia.
      * by destruct (step_of_false _ _ _ _ _ _ _ Hstep) as [? ->].
    + by exists s.
    + by apply step_not_OutOfFuel in Hstep.
Qed.

Lemma construct_weight :
  queue_weight width_ height_ (queue_ (construct width_ height_))
  = 4 ^ (width_ + height_).
Proof.
  unfold construct, insertCandidate; simpl. unfold weight; simpl.
  rewrite Z.add_0_r. f_equal. lia.
Qed.


End Loop.

(** X7.  [while(step())] ends, in either revision and for every
    matcher and threshold: from the constructed engine, at most
    [4 ^ (width + height)] calls of [step] return [true].  With that much
    fuel the loop ends on an empty queue, or at an access outside the
    matrix. *)
Theorem steps_end_within_fuel r W H matcher thr fuel :
  0 < W < 2 ^ 32 -> 0 < H < 2 ^ 32 -> 4 ^ (W + H) < Z.of_nat fuel ->
  steps_of r W H matcher thr fuel (construct W H) = OutOfBounds \/
  exists s, steps_of r W H matcher thr fuel (construct W H) = Done s /\
            queue_ s = [].
Proof.
  intros HW HH Hfuel.
  pose proof (steps_of_end r W H matcher thr HW HH fuel (construct W H)) as Hend.
  rewrite construct_weight in Hend.
  specialize (Hend (engine_ok_construct W H matcher ltac:(lia) ltac:(lia)) Hfuel).
  destruct (steps_of _ _ _ _ _ _ _) as [s| |]; [right; by exists s | by left | done].
Qed.

Lemma steps_end_within_fuel_witness :
  (steps_of lmm_cpp 3 2 (matcher_of []) 1 1025 (construct 3 2) = OutOfBounds \/
   exists s, steps_of lmm_cpp 3 2 (matcher_of []) 1 1025 (construct 3 2) = Done s /\
             queue_ s = []) /\
  steps_of lmm_cpp 3 2 (matcher_of []) 1 1025 (construct 3 2) = OutOfBounds.
Proof.
  split; [|vm_compute; reflexivity].
  apply steps_end_within_fuel; [lia | lia | vm_compute; reflexivity].
Defined.

(** ** The walk back from [bestRes_] *)

Lemma span_set_Done {A} (sp : list A) (k : Z) (a : A) (sp' : list A) :
  span_set sp k a = Done sp' ->
  (Z.to_nat k < length sp)%nat /\ sp' = <[Z.to_nat k := a]> sp.
Proof.
  unfold span_set. destruct (_ <? _)%nat eqn:Hlt; [|done].
  apply Nat.ltb_lt in Hlt. by intros [= <-].
Qed.

Lemma drop_written {A} (l : list A) (n : nat) (a : A) :
  (n < length l)%nat -> drop n (<[n := a]> l) = a :: drop (S n) l.
Proof.
  intros Hn. rewrite (drop_S (<[n := a]> l) a n) by by apply list_lookup_insert_eq.
  by rewrite drop_insert_lt by lia.
Qed.

Section Rev2Walk.

Variables (width_ : Z) (s : LazyMatrixMarch).

(** What is known at the head of the loop about [i], [j] and the entries
    written so far. *)
Variable Inv : Z -> Z -> list ResultMatch -> Prop.

Hypothesis Hup : forall i j R sc up,
  0 < i -> 0 < j -> Inv i j R ->
  match_get width_ s i j = Done sc -> match_get width_ s (i - 1) j = Done up ->
  (best up == best sc)%Q -> Inv (i - 1) j R.

Hypothesis Hleft : forall i j R sc up left,
  0 < i -> 0 < j -> Inv i j R ->
  match_get width_ s i j = Done sc -> match_get width_ s (i - 1) j = Done up ->
  ~ (best up == best sc)%Q ->
  match_get width_ s i (j - 1) = Done left ->
  (best left == best sc)%Q -> Inv i (j - 1) R.

Hypothesis Hdiag : forall i j R sc up left diag,
  0 < i -> 0 < j -> Inv i j R ->
  match_get width_ s i j = Done sc -> match_get width_ s (i - 1) j = Done up ->
  ~ (best up == best sc)%Q ->
  match_get width_ s i (j - 1) = Done left ->
  ~ (best left == best sc)%Q ->
  match_get width_ s (i - 1) (j - 1) = Done diag ->
  Inv (i - 1) (j - 1)
      ({| rm_i := i - 1; rm_j := j - 1; matchVal := eval diag |} :: R).

Lemma Rev2_walk_ind fuel i j outID buf outID' buf' :
  0 <= i < 2 ^ 32 -> 0 <= j < 2 ^ 32 ->
  Z.min i j <= outID <= Z.of_nat (length buf) -> outID < 2 ^ 32 ->
  Inv i j (drop (Z.to_nat outID) buf) ->
  Rev2.walk width_ fuel s i j outID buf = Done (outID', buf') ->
  exists i' j',
    (i' = 0 \/ j' = 0) /\ 0 <= i' <= i /\ 0 <= j' <= j /\
    0 <= outID' <= outID /\ length buf' = length buf /\
    Inv i' j' (drop (Z.to_nat outID') buf').
Proof.
  revert i j outID buf.
  induction fuel as [|fuel IH]; intros i j outID buf Hi Hj Hout Hout32 HInv; simpl.
  - destruct ((0 <? i) && (0 <? j)) eqn:Hpos; [done|]. intros [= <- <-].
    exists i, j. apply andb_false_iff in Hpos as [?%Z.ltb_ge | ?%Z.ltb_ge];
      repeat split; try lia; done.
  - destruct ((0 <? i) && (0 <? j)) eqn:Hpos.
    + apply andb_true_iff in Hpos as [Hi0%Z.ltb_lt Hj0%Z.ltb_lt].
      rewrite (u32_small (i - 1)), (u32_small (j - 1)) by lia.
      intros (sc & Hsc & Hwalk)%bind_Done.
      apply bind_Done in Hwalk as (up & Hupc & Hwalk).
      destruct (Qeq_bool (best up) (best sc)) eqn:Hequ.
      { apply Qeq_bool_iff in Hequ.
        apply IH in Hwalk as (i' & j' & ? & ? & ? & ? & ? & ?); try lia; [|by eauto].
        exists i', j'. repeat split; try lia; done. }
      apply Qeq_bool_neq in Hequ.
      apply bind_Done in Hwalk as (left & Hleftc & Hwalk).
      destruct (Qeq_bool (best left) (best sc)) eqn:Heql.
      { apply Qeq_bool_iff in Heql.
        apply IH in Hwalk as (i' & j' & ? & ? & ? & ? & ? & ?); try lia; [|by eauto].
        exists i', j'. repeat split; try lia; done. }
      apply Qeq_bool_neq in Heql.
      apply bind_Done in Hwalk as (diag & Hdiagc & Hwalk).
      cbn zeta in Hwalk.
      apply bind_Done in Hwalk as (buf1 & Hset & Hwalk).
      rewrite (u32_small (outID - 1)) in Hset, Hwalk by lia.
      apply span_set_Done in Hset as [Hlt ->].
      apply IH in Hwalk as (i' & j' & ? & ? & ? & ? & Hlen & ?); try lia.
      * exists i', j'. rewrite length_insert in Hlen. repeat split; try lia; done.
      * rewrite length_insert. lia.
      * replace (Z.to_nat outID) with (S (Z.to_nat (outID - 1))) in HInv by lia.
        rewrite drop_written by done. by eauto.
    + intros [= <- <-].
      exists i, j. apply andb_false_iff in Hpos as [?%Z.ltb_ge | ?%Z.ltb_ge];
        repeat split; try lia; done.
Qed.

End Rev2Walk.

Section WalkInBounds.

Variables width_ height_ : Z.
Hypothesis HW : 0 < width_.
Hypothesis Hle : width_ <= height_.
Hypothesis Hfit : width_ * height_ < 2 ^ 32.


End WalkInBounds.

Lemma length_alloc_ResultMatch raw n :
  length (alloc_ResultMatch raw n) = Z.to_nat n.
Proof. unfold alloc_ResultMatch. by rewrite length_map, length_seq. Qed.

Lemma span_last_drop {A} (buf : list A) (maxMatches outID : Z) :
  length buf = Z.to_nat maxMatches -> 0 <= outID <= maxMatches ->
  maxMatches < 2 ^ 32 ->
  span_last buf (u32 (maxMatches - outID)) = Done (drop (Z.to_nat outID) buf).
Proof.
  intros Hlen Hout Hmax. unfold span_last. rewrite u32_small by lia.
  assert ((Z.to_nat (maxMatches - outID) <=? length buf)%nat = true) as ->
    by (apply Nat.leb_le; lia).
  do 2 f_equal. lia.
Qed.

(** ** The result of [run] in the later revision *)

Section Rev2Result.

Variables width_ height_ : Z.
Variable matcher_ : Matcher.
Variable branchThreshold_ : Q.
Variable raw : nat -> ResultMatch.
Hypothesis HW : 0 < width_ < 2 ^ 32.
Hypothesis HH : 0 < height_ < 2 ^ 32.

(** [run] cut after [while(step())]: the walk from a finished engine. *)
Definition Rev2_gather (s : LazyMatrixMarch) : outcome Result :=
  let maxMatches := Z.min width_ height_ in
  let buf := alloc_ResultMatch raw maxMatches in
  let outID := maxMatches in
  let '(i, j) := bestRes_ s in
  lastMatch ← match_get width_ s i j;
  '(outID, buf) ← (if Qltb 0 (eval lastMatch)
                   then
                     buf ← span_set buf (u32 (outID - 1))
                             {| rm_i := i; rm_j := j; matchVal := eval lastMatch |};
                     Done (u32 (outID - 1), buf)
                   else Done (outID, buf)) : outcome (Z * list ResultMatch);
  '(outID, buf) ← Rev2.walk width_ (Z.to_nat (i + j)) s i j outID buf;
  ms ← span_last buf (u32 (maxMatches - outID));
  Done {| totalMatch := bestMatch_ s; matches := ms |}.

Lemma Rev2_run_gather fuel s :
  Rev2.run width_ height_ matcher_ branchThreshold_ raw fuel s
  = Rev2.steps width_ height_ matcher_ branchThreshold_ fuel s ≫= Rev2_gather.
Proof. reflexivity. Qed.

(** The entries written so far, in the order of the result: [R]; the walk is
    at [(i, j)]. *)
Definition increasing (R : list ResultMatch) : Prop :=
  StronglySorted (fun a b => rm_i a < rm_i b /\ rm_j a < rm_j b) R.

Definition walk_shape (i j : Z) (R : list ResultMatch) : Prop :=
  in_range width_ height_ i j /\ increasing R /\
  Forall (fun a => i <= rm_i a < width_ /\ j <= rm_j a < height_) R.

Lemma walk_shape_back i j i' j' R :
  0 <= i' <= i -> 0 <= j' <= j -> walk_shape i j R -> walk_shape i' j' R.
Proof.
  intros Hi Hj ([? ?] & Hinc & HR). split; [split; lia|]. split; [done|].
  eapply Forall_impl; [exact HR|]. simpl. lia.
Qed.

Lemma walk_shape_diag i j e R :
  0 < i -> 0 < j -> walk_shape i j R ->
  walk_shape (i - 1) (j - 1)
    ({| rm_i := i - 1; rm_j := j - 1; matchVal := e |} :: R).
Proof.
  intros Hi Hj ([? ?] & Hinc & HR). split; [split; lia|]. split.
  - constructor; [done|]. eapply Forall_impl; [exact HR|]. simpl. lia.
  - constructor; [simpl; lia|]. eapply Forall_impl; [exact HR|]. simpl. lia.
Qed.

(** What [Rev2_gather] returns, for an invariant [Inv] of the walk that holds
    at its start. *)
Lemma Rev2_gather_ind (Inv : Z -> Z -> list ResultMatch -> Prop) s res :
  (forall i j R sc up,
     0 < i -> 0 < j -> Inv i j R ->
     match_get width_ s i j = Done sc -> match_get width_ s (i - 1) j = Done up ->
     (best up == best sc)%Q -> Inv (i - 1) j R) ->
  (forall i j R sc up left,
     0 < i -> 0 < j -> Inv i j R ->
     match_get width_ s i j = Done sc -> match_get width_ s (i - 1) j = Done up ->
     ~ (best up == best sc)%Q ->
     match_get width_ s i (j - 1) = Done left ->
     (best left == best sc)%Q -> Inv i (j - 1) R) ->
  (forall i j R sc up left diag,
     0 < i -> 0 < j -> Inv i j R ->
     match_get width_ s i j = Done sc -> match_get width_ s (i - 1) j = Done up ->
     ~ (best up == best sc)%Q ->
     match_get width_ s i (j - 1) = Done left ->
     ~ (best left == best sc)%Q ->
     match_get width_ s (i - 1) (j - 1) = Done diag ->
     Inv (i - 1) (j - 1)
         ({| rm_i := i - 1; rm_j := j - 1; matchVal := eval diag |} :: R)) ->
  bestRes_ok width_ height_ s ->
  (forall m, match_get width_ s (bestRes_ s).1 (bestRes_ s).2 = Done m ->
     Inv (bestRes_ s).1 (bestRes_ s).2
       (if Qltb 0 (eval m)
        then [{| rm_i := (bestRes_ s).1; rm_j := (bestRes_ s).2; matchVal := eval m |}]
        else [])) ->
  Rev2_gather s = Done res ->
  totalMatch res = bestMatch_ s /\
  (length (matches res) <= Z.to_nat (Z.min width_ height_))%nat /\
  exists i j, (i = 0 \/ j = 0) /\ 0 <= i <= (bestRes_ s).1 /\ 0 <= j <= (bestRes_ s).2 /\
              Inv i j (matches res).
Proof.
  intros Hup Hleft Hdiag Hbest Hstart. unfold Rev2_gather.
  unfold bestRes_ok in Hbest.
  destruct (bestRes_ s) as [i j] eqn:Hres. simpl in Hbest, Hstart.
  destruct Hbest as [Hi Hj].
  set (maxMatches := Z.min width_ height_).
  assert (Hmax : 0 < maxMatches < 2 ^ 32) by (unfold maxMatches; lia).
  intros (m & Hget & Hrun)%bind_Done. specialize (Hstart m Hget).
  apply bind_Done in Hrun as ([outID buf] & Hlast & Hrun).
  apply bind_Done in Hrun as ([outID' buf'] & Hwalk & Hrun).
  apply bind_Done in Hrun as (ms & Hms & [= <-]). simpl.
  pose proof (length_alloc_ResultMatch raw maxMatches) as Hlen.
  assert (Z.min i j <= outID <= maxMatches /\ length buf = Z.to_nat maxMatches /\
          Inv i j (drop (Z.to_nat outID) buf)) as (Hout & Hlenb & HInv).
  { destruct (Qltb 0 (eval m)).
    - apply bind_Done in Hlast as (buf1 & Hset & [= <- <-]).
      rewrite u32_small in * by lia.
      apply span_set_Done in Hset as [Hlt ->].
      rewrite length_insert, drop_written by done.
      rewrite drop_ge by lia. split; [unfold maxMatches; lia | done].
    - injection Hlast as <- <-. rewrite drop_ge by lia.
      split; [unfold maxMatches; lia | done]. }
  destruct (Rev2_walk_ind width_ s Inv Hup Hleft Hdiag (Z.to_nat (i + j))
              i j outID buf outID' buf')
    as (i' & j' & Hend & Hi' & Hj' & Hout' & Hlen' & HInv'); try done; try lia.
  rewrite (span_last_drop buf' maxMatches outID') in Hms by lia.
  injection Hms as <-. split; [done|]. split.
  - rewrite length_drop. lia.
  - exists i', j'. repeat split; try lia; done.
Qed.

End Rev2Result.

Lemma Rev2_run_Done_inv W H matcher thr raw fuel res :
  0 < W -> 0 < H ->
  Rev2.run W H matcher thr raw fuel (construct W H) = Done res ->
  exists s,
    Rev2.steps W H matcher thr fuel (construct W H) = Done s /\
    engine_state slow_prune_rev W H matcher thr s /\
    Rev2_gather W H raw s = Done res.
Proof.
  intros HW HH. rewrite Rev2_run_gather.
  intros (s & Hsteps & Hgather)%bind_Done. exists s. split; [done|]. split; [|done].
  eapply (steps_of_reachable slow_prune_rev); [constructor | exact Hsteps].
Qed.

(** X8.  Whatever the matcher and the threshold, the
    [matches] that [run] of the later revision returns are strictly increasing
    in [i] and in [j], name cells of the matrix, and are at most
    [min(width, height)] many. *)
Theorem Rev2_matches_increasing W H matcher thr raw fuel res :
  0 < W < 2 ^ 32 -> 0 < H < 2 ^ 32 ->
  Rev2.run W H matcher thr raw fuel (construct W H) = Done res ->
  StronglySorted (fun a b => rm_i a < rm_i b /\ rm_j a < rm_j b) (matches res) /\
  Forall (fun a => 0 <= rm_i a < W /\ 0 <= rm_j a < H) (matches res) /\
  (length (matches res) <= Z.to_nat (Z.min W H))%nat.
Proof.
  intros HW HH Hrun.
  destruct (Rev2_run_Done_inv W H matcher thr raw fuel res ltac:(lia) ltac:(lia) Hrun)
    as (s & _ & Hs & Hgather).
  pose proof (engine_state_bestRes_ok _ W H matcher thr s ltac:(lia) ltac:(lia) Hs)
    as Hbest.
  destruct (Rev2_gather_ind W H raw HW HH (walk_shape W H) s res)
    as (_ & Hlen & i & j & _ & Hi & Hj & (_ & Hinc & HR)); try done.
  - intros i j R sc up Hi Hj HInv _ _ _. eapply walk_shape_back; [| |exact HInv]; lia.
  - intros i j R sc up lf Hi Hj HInv _ _ _ _ _.
    eapply walk_shape_back; [| |exact HInv]; lia.
  - intros i j R sc up lf dg Hi Hj HInv _ _ _ _ _ _. by apply walk_shape_diag.
  - intros m _. split; [done|]. destruct Hbest.
    destruct (Qltb 0 (eval m)); split; repeat constructor; simpl; lia.
  - split; [done|]. split; [|done].
    eapply Forall_impl; [exact HR|]. simpl. lia.
Qed.

Lemma Rev2_matches_increasing_witness :
  Rev2.run 3 3 identity_matcher 1 (fun _ => {| rm_i := 0; rm_j := 0; matchVal := 0 |})
           20 (construct 3 3)
  = Done {| totalMatch := 3;
            matches := [{| rm_i := 0; rm_j := 0; matchVal := 1 |};
                        {| rm_i := 1; rm_j := 1; matchVal := 1 |};
                        {| rm_i := 2; rm_j := 2; matchVal := 1 |}] |} /\
  StronglySorted (fun a b => rm_i a < rm_i b /\ rm_j a < rm_j b)
    [{| rm_i := 0; rm_j := 0; matchVal := 1 |};
     {| rm_i := 1; rm_j := 1; matchVal := 1 |};
     {| rm_i := 2; rm_j := 2; matchVal := 1 |}].
Proof.
  split; [vm_compute; reflexivity|].
  apply (Rev2_matches_increasing 3 3 identity_matcher 1
           (fun _ => {| rm_i := 0; rm_j := 0; matchVal := 0 |}) 20
           {| totalMatch := 3;
              matches := [{| rm_i := 0; rm_j := 0; matchVal := 1 |};
                          {| rm_i := 1; rm_j := 1; matchVal := 1 |};
                          {| rm_i := 2; rm_j := 2; matchVal := 1 |}] |});
    [lia | lia | vm_compute; reflexivity].
Defined.

Section Rev2Total.

Variables width_ height_ : Z.
Variable raw : nat -> ResultMatch.
Hypothesis HW : 0 < width_.
Hypothesis Hle : width_ <= height_.
Hypothesis Hfit : width_ * height_ < 2 ^ 32.


End Rev2Total.

(** ** The result of [run] in [lmm.cpp] *)

Lemma Lmm_walk_prefix W s fuel i j outID buf outID' buf' :
  0 <= i < 2 ^ 32 -> 0 <= j < 2 ^ 32 -> Z.min i j <= outID -> outID < 2 ^ 32 ->
  Lmm.walk W fuel s i j outID buf = Done (outID', buf') ->
  0 <= outID' <= outID /\ length buf' = length buf /\
  take (S (Z.to_nat outID')) buf' = take (S (Z.to_nat outID')) buf.
Proof.
  revert i j outID buf.
  induction fuel as [|fuel IH]; intros i j outID buf Hi Hj Hout Hout32; simpl.
  - destruct ((0 <? i) && (0 <? j)) eqn:Hpos; [done|]. intros [= <- <-].
    apply andb_false_iff in Hpos as [?%Z.ltb_ge | ?%Z.ltb_ge];
      repeat split; try lia; done.
  - destruct ((0 <? i) && (0 <? j)) eqn:Hpos.
    + apply andb_true_iff in Hpos as [Hi0%Z.ltb_lt Hj0%Z.ltb_lt].
      rewrite (u32_small (i - 1)), (u32_small (j - 1)) by lia.
      intros (sc & Hsc & Hwalk)%bind_Done.
      apply bind_Done in Hwalk as (up & Hupc & Hwalk).
      destruct (Qeq_bool (best up) (best sc)).
      { apply IH in Hwalk as (? & ? & ?); try lia. repeat split; try lia; done. }
      apply bind_Done in Hwalk as (left & Hleftc & Hwalk).
      destruct (Qeq_bool (best left) (best sc)).
      { apply IH in Hwalk as (? & ? & ?); try lia. repeat split; try lia; done. }
      apply bind_Done in Hwalk as (diag & Hdiagc & Hwalk).
      cbn zeta in Hwalk.
      apply bind_Done in Hwalk as (buf1 & Hset & Hwalk).
      rewrite (u32_small (outID - 1)) in Hwalk by lia.
      apply span_set_Done in Hset as [Hlt ->].
      apply IH in Hwalk as (? & Hlen & Htake); try lia.
      rewrite length_insert in Hlen. rewrite take_insert_ge in Htake by lia.
      repeat split; try lia; done.
    + intros [= <- <-].
      apply andb_false_iff in Hpos as [?%Z.ltb_ge | ?%Z.ltb_ge];
        repeat split; try lia; done.
Qed.

Lemma lookup_alloc_ResultMatch raw n k :
  (k < Z.to_nat n)%nat -> alloc_ResultMatch raw n !! k = Some (raw k).
Proof.
  intros Hk. unfold alloc_ResultMatch.
  change (map raw (seq 0 (Z.to_nat n))) with (raw <$> seq 0 (Z.to_nat n)).
  rewrite list_lookup_fmap, lookup_seq_lt by done. done.
Qed.

Section LmmResult.

Variables width_ height_ : Z.
Variable matcher_ : Matcher.
Variable branchThreshold_ : Q.
Variable uninit : Q.
Variable raw : nat -> ResultMatch.

(** [run] cut after [while(step())]. *)
Definition Lmm_gather (s : LazyMatrixMarch) : outcome Result :=
  let maxMatches := Z.min width_ height_ in
  let buf := alloc_ResultMatch raw maxMatches in
  let outID := u32 (maxMatches - 1) in
  let '(i, j) := bestRes_ s in
  '(outID, buf) ← Lmm.walk width_ (Z.to_nat (i + j)) s i j outID buf;
  ms ← span_last buf (u32 (maxMatches - outID));
  Done {| totalMatch := uninit; matches := ms |}.

Lemma Lmm_run_gather fuel s :
  Lmm.run width_ height_ matcher_ branchThreshold_ uninit raw fuel s
  = Lmm.steps width_ height_ matcher_ branchThreshold_ fuel s ≫= Lmm_gather.
Proof. reflexivity. Qed.

Lemma Lmm_gather_unwritten s res :
  0 < width_ < 2 ^ 32 -> 0 < height_ < 2 ^ 32 ->
  bestRes_ok width_ height_ s ->
  Lmm_gather s = Done res ->
  totalMatch res = uninit /\
  exists k rest, matches res = raw k :: rest.
Proof.
  intros HW HH Hbest. unfold Lmm_gather. unfold bestRes_ok in Hbest.
  destruct (bestRes_ s) as [i j]. simpl in Hbest. destruct Hbest as [Hi Hj].
  set (maxMatches := Z.min width_ height_).
  assert (Hmax : 0 < maxMatches < 2 ^ 32) by (unfold maxMatches; lia).
  rewrite (u32_small (maxMatches - 1)) by lia.
  intros ([outID' buf'] & Hwalk & Hrun)%bind_Done.
  apply bind_Done in Hrun as (ms & Hms & [= <-]). simpl. split; [done|].
  pose proof (length_alloc_ResultMatch raw maxMatches) as Hlen.
  apply Lmm_walk_prefix in Hwalk as (Hout & Hlen' & Htake);
    try (unfold maxMatches in *; lia).
  rewrite (span_last_drop buf' maxMatches outID') in Hms by lia.
  injection Hms as <-.
  assert (buf' !! Z.to_nat outID' = Some (raw (Z.to_nat outID'))) as Hslot.
  { rewrite <- (lookup_take_lt buf' (S (Z.to_nat outID'))), Htake by lia.
    rewrite lookup_take_lt by lia. apply lookup_alloc_ResultMatch. lia. }
  exists (Z.to_nat outID'), (drop (S (Z.to_nat outID')) buf').
  by apply drop_S.
Qed.

End LmmResult.

Section LmmTotal.

Variables width_ height_ : Z.
Variable uninit : Q.
Variable raw : nat -> ResultMatch.
Hypothesis HW : 0 < width_.
Hypothesis Hle : width_ <= height_.
Hypothesis Hfit : width_ * height_ < 2 ^ 32.



End LmmTotal.

(** X9.  Every result of [run] of [lmm.cpp] has
    [totalMatch] unassigned and begins with a slot of the result buffer that
    [run] did not write: [matches] is [raw k :: rest] for a slot [k] as the
    allocator left it. *)
Theorem Lmm_first_match_is_unwritten W H matcher thr uninit raw fuel res :
  0 < W < 2 ^ 32 -> 0 < H < 2 ^ 32 ->
  Lmm.run W H matcher thr uninit raw fuel (construct W H) = Done res ->
  totalMatch res = uninit /\
  exists k rest, matches res = raw k :: rest.
Proof.
  intros HW HH. rewrite Lmm_run_gather.
  intros (s & Hsteps & Hgather)%bind_Done.
  apply (Lmm_gather_unwritten W H uninit raw s); try done.
  apply (engine_state_bestRes_ok lmm_cpp W H matcher thr); [lia | lia |].
  eapply (steps_of_reachable lmm_cpp); [constructor | exact Hsteps].
Qed.

Lemma Lmm_first_match_is_unwritten_witness :
  let raw := fun k => {| rm_i := 7; rm_j := 7; matchVal := inject_Z (Z.of_nat k) |} in
  Lmm.run 3 3 identity_matcher 1 0 raw 20 (construct 3 3)
  = Done {| totalMatch := 0;
            matches := [raw 0%nat;
                        {| rm_i := 0; rm_j := 0; matchVal := 1 |};
                        {| rm_i := 1; rm_j := 1; matchVal := 1 |}] |} /\
  exists k rest,
    [raw 0%nat;
     {| rm_i := 0; rm_j := 0; matchVal := 1 |};
     {| rm_i := 1; rm_j := 1; matchVal := 1 |}] = raw k :: rest.
Proof.
  cbn zeta. split; [vm_compute; reflexivity|].
  apply (Lmm_first_match_is_unwritten 3 3 identity_matcher 1 0
           (fun k => {| rm_i := 7; rm_j := 7; matchVal := inject_Z (Z.of_nat k) |}) 20
           {| totalMatch := 0;
              matches := [{| rm_i := 7; rm_j := 7; matchVal := 0 |};
                          {| rm_i := 0; rm_j := 0; matchVal := 1 |};
                          {| rm_i := 1; rm_j := 1; matchVal := 1 |}] |});
    [lia | lia | vm_compute; reflexivity].
Defined.



(** ** [run] after calls of [step] *)






(** ** Square matrices

    When [width = height] the index [width * i + j] of [match(i, j)] names a
    cell of its own for every pair, and the engine finds the best path. *)

Lemma elem_of_rev {A} (x : A) (l : list A) : x ∈ rev l <-> x ∈ l.
Proof. rewrite !list_elem_of_In. symmetry. apply in_rev. Qed.

Lemma prune_of_removed r W H minScore s c :
  c ∈ queue_ s ->
  c ∈ queue_ (prune_of W H r minScore s) \/ reaches W H minScore c = false.
Proof.
  intros Hc. destruct r; simpl.
  - destruct (Lmm_prune_spec W H minScore s) as (removed & Hq & _ & Hlow & _).
    rewrite Hq in Hc. apply elem_of_app in Hc as [Hc|Hc]; [by left|right].
    rewrite Forall_forall in Hlow. by apply Hlow.
  - unfold Rev2.prune.
    assert (Hscan : forall rq fl, c ∈ rq ->
              c ∈ (Rev2.prune_scan W H minScore rq fl).1 \/ reaches W H minScore c = false).
    { induction rq as [|it prev IH]; intros fl Hin; simpl; [by apply elem_of_nil in Hin|].
      assert (Hlow : Qltb (maxPossibleScore W H (cand_score it) (cand_i it) (cand_j it))
                       minScore = negb (reaches W H minScore it)) by reflexivity.
      rewrite Hlow. apply elem_of_cons in Hin as [->|Hin].
      - destruct (reaches W H minScore it) eqn:Hreach; [left|by right].
        destruct (Qle_bool minScore (cand_score it)); simpl; [by left|].
        destruct (Rev2.prune_scan _ _ _ _ _); simpl. by left.
      - destruct (Qle_bool minScore (cand_score it)).
        + left. destruct (negb _); simpl; [done | by right].
        + destruct (IH (if negb (reaches W H minScore it) then it :: fl else fl) Hin)
            as [Hk|Hk]; [|by right].
          left. destruct (Rev2.prune_scan _ _ _ _ _); simpl in *.
          destruct (negb _); simpl; [done | by right]. }
    destruct (Hscan (rev (queue_ s)) (freeList_ s)) as [Hk|Hk]; [| |by right].
    + by apply elem_of_rev.
    + left. destruct (Rev2.prune_scan _ _ _ _ _) as [rq fl]; simpl in *.
      by apply elem_of_rev.
Qed.

Section Square.

Variables (r : revision) (N : Z) (matcher : Matcher) (thr : Q).
Hypothesis HN : 0 < N.
Hypothesis Hfit : N * N < 2 ^ 32.
Hypothesis Hcontract : matcher_contract N N matcher.

Lemma N_u32 : N < 2 ^ 32.
Proof. nia. Qed.

(** The cell of [(i, j)]. *)
Definition cell (mm : list EvalMatch) (i j : Z) : option EvalMatch :=
  mm !! Z.to_nat (match_index N i j).

Lemma index_sq i j :
  in_range N N i j -> match_index N i j = N * i + j /\ 0 <= N * i + j < N * N.
Proof.
  intros [Hi Hj]. assert (0 <= N * i + j < N * N) by nia.
  unfold match_index. rewrite u32_small by lia. done.
Qed.

Lemma index_inj i j i' j' :
  in_range N N i j -> in_range N N i' j' ->
  Z.to_nat (match_index N i j) = Z.to_nat (match_index N i' j') ->
  i = i' /\ j = j'.
Proof.
  intros Hin Hin'.
  destruct (index_sq i j Hin) as [-> ?], (index_sq i' j' Hin') as [-> ?].
  intros Heq. destruct Hin, Hin'. assert (N * i + j = N * i' + j') by lia.
  assert (i = i') by nia. subst. lia.
Qed.

Lemma cell_insert_eq mm i j m :
  in_range N N i j -> length mm = Z.to_nat (N * N) ->
  cell (<[Z.to_nat (match_index N i j) := m]> mm) i j = Some m.
Proof.
  intros Hin Hlen. unfold cell. apply list_lookup_insert_eq.
  destruct (index_sq i j Hin) as [-> ?]. lia.
Qed.

Lemma cell_insert_ne mm i j i' j' m :
  in_range N N i j -> in_range N N i' j' -> (i, j) <> (i', j') ->
  cell (<[Z.to_nat (match_index N i j) := m]> mm) i' j' = cell mm i' j'.
Proof.
  intros Hin Hin' Hne. unfold cell. apply list_lookup_insert_ne.
  intros Heq. destruct (index_inj i j i' j' Hin Hin' Heq). congruence.
Qed.

Lemma cell_in_range mm i j :
  in_range N N i j -> length mm = Z.to_nat (N * N) ->
  exists m, cell mm i j = Some m.
Proof.
  intros Hin Hlen. unfold cell. apply lookup_lt_is_Some_2.
  destruct (index_sq i j Hin) as [-> ?]. lia.
Qed.

(** The score with which the path came to the cell, and the most that the
    cells from [(i, j)] on can add. *)
Definition base (m : EvalMatch) : Q :=
  match r with
  | slow_prune_rev => best m
  | lmm_cpp => (best m - eval m)%Q
  end.

Definition space (i j : Z) : Q :=
  inject_Z (Z.min (u32 (N - i)) (u32 (N - j))).

Lemma space_in_range i j : in_range N N i j -> (1 <= space i j)%Q.
Proof.
  intros [Hi Hj]. pose proof N_u32. apply inject_Z_ge1.
  rewrite !u32_small by lia. lia.
Qed.

Lemma space_successor i j addI addJ :
  in_range N N i j -> 0 <= addI <= 1 -> 0 <= addJ <= 1 ->
  in_range N N (i + addI) (j + addJ) ->
  (space i j - 1 <= space (i + addI) (j + addJ))%Q.
Proof.
  intros [Hi Hj] HaI HaJ [Hi' Hj']. pose proof N_u32.
  unfold space. rewrite !u32_small by lia. apply inject_Z_pred_le. lia.
Qed.

Lemma upperBound_space c :
  upperBound N N c = (cand_score c + space (cand_i c) (cand_j c))%Q.
Proof. reflexivity. Qed.

(** A cell that a candidate was expanded at. *)
Definition expanded (m : EvalMatch) : Prop := ~ (eval m == -1)%Q.

Definition cell_ok (i j : Z) (m : EvalMatch) : Prop :=
  ((eval m == -1)%Q /\ (best m == -1)%Q) \/
  ((eval m == matcher i j)%Q /\ (0 <= base m)%Q).

Definition cells_ok (mm : list EvalMatch) : Prop :=
  forall i j, in_range N N i j -> exists m, cell mm i j = Some m /\ cell_ok i j m.

Lemma cell_ok_expanded i j m :
  in_range N N i j -> cell_ok i j m -> expanded m ->
  (eval m == matcher i j)%Q /\ (0 <= base m)%Q /\ (0 <= eval m <= 1)%Q.
Proof.
  intros [Hi Hj] [[He _]|[He Hb]] Hex; [done|].
  destruct (Hcontract i j Hi Hj). repeat split; try done; lra.
Qed.

Lemma cells_ok_expanded mm i j m :
  cells_ok mm -> in_range N N i j -> cell mm i j = Some m -> expanded m ->
  (eval m == matcher i j)%Q /\ (0 <= base m)%Q /\ (0 <= eval m <= 1)%Q.
Proof.
  intros Hcells Hin Hm Hex. destruct (Hcells i j Hin) as (m' & Hm' & Hok).
  assert (m' = m) as -> by congruence. by apply cell_ok_expanded.
Qed.

(** *** What the engine still owes

    [promised v]: some finished path, queued candidate or expanded cell has a
    score of [v] or more. *)
Definition promised (mm : list EvalMatch) (q : list Candidate) (B : Q) (v : Q)
  : Prop :=
  (v <= B)%Q \/
  (exists c, c ∈ q /\ (v <= cand_score c)%Q) \/
  (exists i j m, in_range N N i j /\ cell mm i j = Some m /\ expanded m /\
                 (v <= base m + eval m)%Q).

(** [covered i j sc]: a path that comes to [(i, j)] with score [sc] is taken
    care of: it is finished and [bestMatch_] has its score; or a candidate for
    [(i, j)] with at least that score is queued; or the cell was expanded with
    at least that score; or all it can reach is promised. *)
Definition covered (mm : list EvalMatch) (q : list Candidate) (B : Q)
  (i j : Z) (sc : Q) : Prop :=
  ((N <= i \/ N <= j) /\ (sc <= B)%Q) \/
  (in_range N N i j /\
   ((exists c, c ∈ q /\ cand_i c = i /\ cand_j c = j /\ (sc <= cand_score c)%Q) \/
    (exists m, cell mm i j = Some m /\ expanded m /\ (sc <= base m)%Q) \/
    promised mm q B (sc + space i j))).

Definition cell_covered (mm : list EvalMatch) (q : list Candidate) (B : Q)
  (i j : Z) (m : EvalMatch) : Prop :=
  ((0 < eval m)%Q -> covered mm q B (i + 1) (j + 1) (base m + eval m)) /\
  ((eval m < thr)%Q ->
   covered mm q B (i + 1) j (base m) /\ covered mm q B i (j + 1) (base m)).

(** Every expanded cell but [x], the one being expanded, has its successors
    covered, and so has the start. *)
Definition coverage_but (x : option (Z * Z)) (mm : list EvalMatch)
  (q : list Candidate) (B : Q) : Prop :=
  covered mm q B 0 0 0 /\
  forall i j m, in_range N N i j -> x <> Some (i, j) ->
                cell mm i j = Some m -> expanded m -> cell_covered mm q B i j m.

(** *** Scores are scores of paths *)

Definition path_before (i j : Z) (P : list (Z * Z)) : Prop :=
  monotone_path N N P = true /\ Forall (fun p => p.1 < i /\ p.2 < j) P.

Definition reached (i j : Z) (sc : Q) : Prop :=
  exists P, path_before i j P /\ (path_score matcher P == sc)%Q.

Definition reached_all (mm : list EvalMatch) (q : list Candidate) : Prop :=
  Forall (fun c => reached (cand_i c) (cand_j c) (cand_score c)) q /\
  forall i j m, in_range N N i j -> cell mm i j = Some m -> expanded m ->
                reached i j (base m).

(** *** Where a score came from *)

Definition pred (mm : list EvalMatch) (i j : Z) (sc : Q) : Prop :=
  (i = 0 /\ j = 0) \/
  (0 < i /\ exists m, cell mm (i - 1) j = Some m /\ expanded m /\ (sc <= base m)%Q) \/
  (0 < j /\ exists m, cell mm i (j - 1) = Some m /\ expanded m /\ (sc <= base m)%Q) \/
  (0 < i /\ 0 < j /\
   exists m, cell mm (i - 1) (j - 1) = Some m /\ expanded m /\ (0 < eval m)%Q /\
             (sc <= base m + eval m)%Q).

Definition pred_all (mm : list EvalMatch) (q : list Candidate) : Prop :=
  Forall (fun c => pred mm (cand_i c) (cand_j c) (cand_score c)) q /\
  forall i j m, in_range N N i j -> cell mm i j = Some m -> expanded m ->
                pred mm i j (base m).

(** [bestMatch_] is not more than what its cell [bestRes_] gives. *)
Definition best_cell (mm : list EvalMatch) (B : Q) (x : Z * Z) : Prop :=
  (0 <= B)%Q ->
  exists m, cell mm x.1 x.2 = Some m /\ expanded m /\
            (B <= base m + (if Qltb 0 (eval m) then eval m else 0))%Q.

(** The state between two calls of [step] ([x = None]) and while the
    successors of the cell [x] are added. *)
Record sq_inv (x : option (Z * Z)) (s : LazyMatrixMarch) : Prop := {
  sq_queue : Forall (cand_in_range N N) (queue_ s);
  sq_scores : Forall (fun c => (0 <= cand_score c)%Q) (queue_ s);
  sq_size : length (matchMatrix_ s) = Z.to_nat (N * N);
  sq_cells : cells_ok (matchMatrix_ s);
  sq_cov : coverage_but x (matchMatrix_ s) (queue_ s) (bestMatch_ s);
  sq_reached : reached_all (matchMatrix_ s) (queue_ s);
  sq_pred : pred_all (matchMatrix_ s) (queue_ s);
  sq_best : best_cell (matchMatrix_ s) (bestMatch_ s) (bestRes_ s);
  sq_res : bestRes_ok N N s
}.

(** *** How the state grows *)

Definition cells_grow (mm mm' : list EvalMatch) : Prop :=
  forall i j m, in_range N N i j -> cell mm i j = Some m -> expanded m ->
    exists m', cell mm' i j = Some m' /\ expanded m' /\
               (base m <= base m')%Q /\ (eval m' == eval m)%Q.

Definition frontier_grows (mm : list EvalMatch) (q : list Candidate) (B : Q)
  (mm' : list EvalMatch) (q' : list Candidate) (B' : Q) : Prop :=
  (B <= B')%Q /\ cells_grow mm mm' /\
  forall c, c ∈ q ->
    c ∈ q' \/
    (exists m', cell mm' (cand_i c) (cand_j c) = Some m' /\ expanded m' /\
                (cand_score c <= base m')%Q) \/
    promised mm' q' B' (cand_score c + space (cand_i c) (cand_j c)).

Lemma cells_grow_refl mm : cells_grow mm mm.
Proof. intros i j m Hin Hm Hex. exists m. repeat split; try done; lra. Qed.

Lemma promised_le mm q B v v' :
  promised mm q B v -> (v' <= v)%Q -> promised mm q B v'.
Proof.
  intros [Hb | [(c & Hc & Hv) | (i & j & m & Hin & Hm & Hex & Hv)]] Hle.
  - left. lra.
  - right; left. exists c. split; [done | lra].
  - right; right. exists i, j, m. split; [exact Hin|]. split; [done|]. split; [done|]. lra.
Qed.

Lemma promised_grows mm q B mm' q' B' v :
  frontier_grows mm q B mm' q' B' ->
  Forall (cand_in_range N N) q -> cells_ok mm' ->
  promised mm q B v -> promised mm' q' B' v.
Proof.
  intros (HB & Hcells & Hq) Hrange Hok
    [Hb | [(c & Hc & Hv) | (i & j & m & Hin & Hm & Hex & Hv)]].
  - left. lra.
  - assert (Hcin : cand_in_range N N c) by (rewrite Forall_forall in Hrange; auto).
    destruct (Hq c Hc) as [Hc' | [(m' & Hm' & Hex' & Hs) | Hp]].
    + right; left. exists c. by split.
    + right; right. exists (cand_i c), (cand_j c), m'.
      destruct (cells_ok_expanded _ _ _ _ Hok Hcin Hm' Hex') as (_ & _ & He).
      split; [exact Hcin|]. split; [done|]. split; [done|]. lra.
    + eapply promised_le; [exact Hp|].
      pose proof (space_in_range _ _ Hcin). lra.
  - destruct (Hcells i j m Hin Hm Hex) as (m' & Hm' & Hex' & Hb & He).
    right; right. exists i, j, m'. split; [exact Hin|]. split; [done|]. split; [done|]. lra.
Qed.

Lemma covered_grows mm q B mm' q' B' i j sc :
  frontier_grows mm q B mm' q' B' ->
  Forall (cand_in_range N N) q -> cells_ok mm' ->
  covered mm q B i j sc -> covered mm' q' B' i j sc.
Proof.
  intros Hgrow Hrange Hok [[Hout Hb] | [Hin Hcov]].
  - left. split; [done|]. destruct Hgrow as (HB & _). lra.
  - right. split; [done|].
    destruct Hcov as [(c & Hc & Hi & Hj & Hs) | [(m & Hm & Hex & Hs) | Hp]].
    + destruct Hgrow as (HB & Hcells & Hq).
      destruct (Hq c Hc) as [Hc' | [(m' & Hm' & Hex' & Hs') | Hp]].
      * left. exists c. by repeat split.
      * right; left. exists m'. rewrite Hi, Hj in Hm'. repeat split; try done. lra.
      * right; right. eapply promised_le; [exact Hp|]. rewrite Hi, Hj. lra.
    + destruct Hgrow as (HB & Hcells & Hq).
      destruct (Hcells i j m Hin Hm Hex) as (m' & Hm' & Hex' & Hb & He).
      right; left. exists m'. repeat split; try done. lra.
    + right; right. by eapply promised_grows.
Qed.

Lemma coverage_but_grows x mm q B mm' q' B' :
  frontier_grows mm q B mm' q' B' ->
  Forall (cand_in_range N N) q -> cells_ok mm' ->
  (forall i j, in_range N N i j -> x <> Some (i, j) -> cell mm' i j = cell mm i j) ->
  coverage_but x mm q B -> coverage_but x mm' q' B'.
Proof.
  intros Hgrow Hrange Hok Hsame [Hstart Hcov]. split; [by eapply covered_grows|].
  intros i j m Hin Hx Hm Hex. rewrite Hsame in Hm by done.
  destruct (Hcov i j m Hin Hx Hm Hex) as [Hd Hs]. split.
  - intros He. by eapply covered_grows; [| | |apply Hd].
  - intros He. destruct (Hs He). split; by eapply covered_grows.
Qed.

Lemma pred_grows mm mm' i j sc :
  cells_grow mm mm' -> in_range N N i j -> pred mm i j sc -> pred mm' i j sc.
Proof.
  intros Hcells [Hi Hj] [Ho | [(Hi0 & m & Hm & Hex & Hs) |
    [(Hj0 & m & Hm & Hex & Hs) | (Hi0 & Hj0 & m & Hm & Hex & He & Hs)]]].
  - by left.
  - destruct (Hcells (i - 1) j m ltac:(split; lia) Hm Hex) as (m' & Hm' & Hex' & Hb & _).
    right; left. split; [done|]. exists m'. repeat split; try done. lra.
  - destruct (Hcells i (j - 1) m ltac:(split; lia) Hm Hex) as (m' & Hm' & Hex' & Hb & _).
    right; right; left. split; [done|]. exists m'. repeat split; try done. lra.
  - destruct (Hcells (i - 1) (j - 1) m ltac:(split; lia) Hm Hex)
      as (m' & Hm' & Hex' & Hb & He').
    right; right; right. split; [done|]. split; [done|].
    exists m'. repeat split; try done; lra.
Qed.

(** *** Paths *)

Lemma monotone_path_snoc P i j :
  monotone_path N N P = true -> Forall (fun p => p.1 < i /\ p.2 < j) P ->
  in_range N N i j -> monotone_path N N (P ++ [(i, j)]) = true.
Proof.
  intros Hmono Hlt [Hi Hj]. induction P as [|[pi pj] rest IH]; simpl.
  - repeat (apply andb_true_intro; split); try done; lia.
  - apply Forall_cons in Hlt as [[Hpi Hpj] Hlt]. simpl in Hpi, Hpj, Hmono.
    apply andb_true_iff in Hmono as [Hmono Hrest].
    apply andb_true_iff in Hmono as [Hrange Hnext].
    rewrite Hrange, (IH Hrest Hlt). simpl.
    destruct rest as [|[qi qj] rest]; simpl; [|by rewrite Hnext].
    apply andb_true_intro. split; [|done]. apply andb_true_intro. split; lia.
Qed.

Lemma path_score_snoc P i j :
  (path_score matcher (P ++ [(i, j)]) == path_score matcher P + matcher i j)%Q.
Proof.
  induction P as [|p rest IH]; simpl; [lra|]. rewrite IH. lra.
Qed.

Lemma reached_eq i j sc sc' : reached i j sc -> (sc == sc')%Q -> reached i j sc'.
Proof. intros (P & HP & Hs) Heq. exists P. split; [done|]. by rewrite Hs. Qed.

Lemma reached_side i j sc addI addJ :
  0 <= addI -> 0 <= addJ -> reached i j sc -> reached (i + addI) (j + addJ) sc.
Proof.
  intros HaI HaJ (P & [Hmono Hlt] & Hs). exists P. split; [|done]. split; [done|].
  eapply Forall_impl; [exact Hlt|]. simpl. lia.
Qed.

Lemma reached_diag i j sc :
  in_range N N i j -> reached i j sc -> reached (i + 1) (j + 1) (sc + matcher i j).
Proof.
  intros Hin (P & [Hmono Hlt] & Hs). exists (P ++ [(i, j)]). split.
  - split; [by apply monotone_path_snoc|]. apply Forall_app. split.
    + eapply Forall_impl; [exact Hlt|]. simpl. lia.
    + repeat constructor; simpl; lia.
  - rewrite path_score_snoc, Hs. lra.
Qed.

(** *** The constructed engine *)

Lemma cell_construct i j :
  in_range N N i j -> cell (matchMatrix_ (construct N N)) i j = Some EvalMatch_default.
Proof.
  intros Hin. unfold cell, construct, insertCandidate; simpl.
  apply lookup_replicate_2. destruct (index_sq i j Hin) as [-> ?].
  rewrite u32_small by lia. lia.
Qed.

Lemma sq_inv_construct : sq_inv None (construct N N).
Proof.
  assert (Hseed : in_range N N 0 0) by (split; lia).
  assert (Hnone : forall i j m,
            in_range N N i j -> cell (matchMatrix_ (construct N N)) i j = Some m ->
            ~ expanded m).
  { intros i j m Hin Hm. rewrite cell_construct in Hm by done.
    injection Hm as <-. intros Hex. by apply Hex. }
  split.
  - repeat constructor; simpl; lia.
  - by repeat constructor.
  - unfold construct, insertCandidate; simpl. rewrite length_replicate.
    by rewrite u32_small by lia.
  - intros i j Hin. exists EvalMatch_default. split; [by apply cell_construct|].
    by left.
  - split.
    + right. split; [done|]. left.
      exists {| cand_i := 0; cand_j := 0; cand_score := 0 |}.
      split; [by left|]. split; [done|]. split; [done|]. simpl. lra.
    + intros i j m Hin _ Hm Hex. by destruct (Hnone i j m Hin Hm).
  - split.
    + repeat constructor. exists []. split; [by split|]. simpl. lra.
    + intros i j m Hin Hm Hex. by destruct (Hnone i j m Hin Hm).
  - split.
    + constructor; [by left | constructor].
    + intros i j m Hin Hm Hex. by destruct (Hnone i j m Hin Hm).
  - intros HB. unfold construct, insertCandidate in HB. simpl in HB. lra.
  - unfold bestRes_ok, construct, insertCandidate, in_range. simpl. lia.
Qed.

(** *** A popped candidate that is skipped *)

Lemma coverage_but_weaken x mm q B :
  coverage_but None mm q B -> coverage_but x mm q B.
Proof. intros [Hstart Hcov]. split; [done|]. intros i j m Hin _. by apply Hcov. Qed.

Lemma pred_le mm i j sc sc' : pred mm i j sc -> (sc' <= sc)%Q -> pred mm i j sc'.
Proof.
  intros [Ho | [(Hi0 & m & Hm & Hex & Hs) |
    [(Hj0 & m & Hm & Hex & Hs) | (Hi0 & Hj0 & m & Hm & Hex & He & Hs)]]] Hle.
  - by left.
  - right; left. split; [done|]. exists m. repeat split; try done. lra.
  - right; right; left. split; [done|]. exists m. repeat split; try done. lra.
  - right; right; right. split; [done|]. split; [done|].
    exists m. repeat split; try done. lra.
Qed.

Lemma sq_inv_skip s c rest m s' :
  sq_inv None s -> queue_ s = c :: rest ->
  cell (matchMatrix_ s) (cand_i c) (cand_j c) = Some m -> expanded m ->
  (cand_score c <= base m)%Q ->
  popped s rest (matchMatrix_ s) s' -> sq_inv None s'.
Proof.
  intros [Hrange Hscores Hsize Hcells Hcov Hreach Hpred Hbest Hres] Hq Hm Hex Hs
    (Hmm' & Hq' & HB' & Hres').
  rewrite Hq in *.
  assert (Hgrow : frontier_grows (matchMatrix_ s) (c :: rest) (bestMatch_ s)
                    (matchMatrix_ s) rest (bestMatch_ s)).
  { split; [lra|]. split; [apply cells_grow_refl|].
    intros c' [->|Hc']%elem_of_cons; [|by left].
    right; left. by exists m. }
  split; unfold bestRes_ok; rewrite ?Hmm', ?Hq', ?HB', ?Hres'; try done.
  - by apply Forall_cons in Hrange as [_ ?].
  - by apply Forall_cons in Hscores as [_ ?].
  - by eapply coverage_but_grows.
  - destruct Hreach as [Hrq Hrc]. split; [|done]. by apply Forall_cons in Hrq as [_ ?].
  - destruct Hpred as [Hpq Hpc]. split; [|done]. by apply Forall_cons in Hpq as [_ ?].
Qed.

(** *** A popped candidate that is expanded *)

Lemma Qltb_proper (x y y' : Q) : (y == y')%Q -> Qltb x y = Qltb x y'.
Proof.
  intros Heq. destruct (Qltb x y) eqn:H1, (Qltb x y') eqn:H2; try done.
  - apply Qltb_lt in H1. apply Qltb_ge in H2. lra.
  - apply Qltb_ge in H1. apply Qltb_lt in H2. lra.
Qed.

Lemma sq_inv_expand s c rest m m1 s1 :
  sq_inv None s -> queue_ s = c :: rest ->
  cell (matchMatrix_ s) (cand_i c) (cand_j c) = Some m ->
  (expanded m -> (base m <= cand_score c)%Q /\ (eval m1 == eval m)%Q) ->
  (~ expanded m -> (eval m1 == matcher (cand_i c) (cand_j c))%Q) ->
  (base m1 == cand_score c)%Q ->
  popped s rest (<[cell_index N c := m1]> (matchMatrix_ s)) s1 ->
  sq_inv (Some (cand_i c, cand_j c)) s1 /\
  cell (matchMatrix_ s1) (cand_i c) (cand_j c) = Some m1 /\ expanded m1.
Proof.
  intros [Hrange Hscores Hsize Hcells Hcov Hreach Hpred Hbest Hres] Hq Hm Hold Hnew Hb1
    (Hmm' & Hq' & HB' & Hres').
  rewrite Hq in *.
  apply Forall_cons in Hrange as [Hin Hrange].
  apply Forall_cons in Hscores as [Hc0 Hscores].
  destruct Hreach as [Hrq Hrc]. apply Forall_cons in Hrq as [Hrc0 Hrq].
  destruct Hpred as [Hpq Hpc]. apply Forall_cons in Hpq as [Hpc0 Hpq].
  unfold cell_index in *. destruct c as [i j sc]. simpl in *.
  assert (Hin' : in_range N N i j) by exact Hin.
  destruct (Hcontract i j ltac:(apply Hin) ltac:(apply Hin)) as [Hm0 Hm1].
  assert (Hdec : expanded m \/ ~ expanded m).
  { unfold expanded. destruct (Qeq_dec (eval m) (-1)); [right | left]; tauto. }
  assert (He1 : (eval m1 == matcher i j)%Q).
  { destruct Hdec as [Hex|Hex]; [|by apply Hnew].
    destruct (Hold Hex) as [_ ->].
    by destruct (cells_ok_expanded _ _ _ _ Hcells Hin' Hm Hex). }
  assert (Hex1 : expanded m1) by (unfold expanded; lra).
  assert (Hcell1 : cell (<[Z.to_nat (match_index N i j) := m1]> (matchMatrix_ s)) i j = Some m1)
    by by apply cell_insert_eq.
  assert (Hother : forall i' j', in_range N N i' j' -> Some (i, j) <> Some (i', j') ->
            cell (<[Z.to_nat (match_index N i j) := m1]> (matchMatrix_ s)) i' j'
            = cell (matchMatrix_ s) i' j').
  { intros i' j' Hin1 Hne. apply cell_insert_ne; try done. congruence. }
  assert (Hcells_grow : cells_grow (matchMatrix_ s)
                          (<[Z.to_nat (match_index N i j) := m1]> (matchMatrix_ s))).
  { intros i' j' m' Hin1 Hm' Hex'.
    destruct (decide ((i, j) = (i', j'))) as [[= <- <-]|Hne].
    - assert (m' = m) as -> by congruence. destruct (Hold Hex') as [Hb He].
      exists m1. repeat split; try done. lra.
    - exists m'. rewrite Hother by (done || congruence).
      repeat split; try done; lra. }
  assert (Hgrow : frontier_grows (matchMatrix_ s)
                    ({| cand_i := i; cand_j := j; cand_score := sc |} :: rest)
                    (bestMatch_ s)
                    (<[Z.to_nat (match_index N i j) := m1]> (matchMatrix_ s)) rest (bestMatch_ s)).
  { split; [lra|]. split; [done|].
    intros c' [->|Hc']%elem_of_cons; [|by left].
    right; left. exists m1. repeat split; try done. simpl. lra. }
  assert (Hcells1 : cells_ok (<[Z.to_nat (match_index N i j) := m1]> (matchMatrix_ s))).
  { intros i' j' Hin1. destruct (decide ((i, j) = (i', j'))) as [[= <- <-]|Hne].
    - exists m1. split; [done|]. right. split; [done | lra].
    - rewrite Hother by (done || congruence). by apply Hcells. }
  split; [|by rewrite Hmm'].
  split; unfold bestRes_ok; rewrite ?Hmm', ?Hq', ?HB', ?Hres'; try done.
  - by rewrite length_insert.
  - eapply coverage_but_grows; [exact Hgrow | by constructor | done | |].
    + intros i' j' Hin1 Hne. apply Hother; [done | congruence].
    + by apply coverage_but_weaken.
  - split; [done|]. intros i' j' m' Hin1 Hm' Hex'.
    destruct (decide ((i, j) = (i', j'))) as [[= <- <-]|Hne].
    + assert (m' = m1) as -> by congruence. eapply reached_eq; [exact Hrc0 | lra].
    + rewrite Hother in Hm' by (done || congruence). by apply Hrc.
  - split.
    + rewrite Forall_forall in *. intros c' Hc'.
      apply (pred_grows (matchMatrix_ s)); [done | by apply Hrange | by apply Hpq].
    + intros i' j' m' Hin1 Hm' Hex'.
      destruct (decide ((i, j) = (i', j'))) as [[= <- <-]|Hne].
      * assert (m' = m1) as -> by congruence.
        apply (pred_grows (matchMatrix_ s)); [done | done |].
        eapply pred_le; [exact Hpc0 | lra].
      * rewrite Hother in Hm' by (done || congruence).
        apply (pred_grows (matchMatrix_ s)); [done | done | by apply Hpc].
  - intros HB. destruct (Hbest HB) as (mb & Hmb & Hexb & Hle).
    destruct Hres as [Hri Hrj].
    destruct (Hcells_grow _ _ mb (conj Hri Hrj) Hmb Hexb)
      as (mb' & Hmb' & Hexb' & Hb' & He').
    exists mb'. repeat split; try done.
    rewrite (Qltb_proper 0 (eval mb') (eval mb) He').
    destruct (Qltb 0 (eval mb)); lra.
Qed.

(** *** The successors of an expanded cell *)

Lemma frontier_grows_super mm q B q' B' :
  (B <= B')%Q -> q ⊆ q' -> frontier_grows mm q B mm q' B'.
Proof.
  intros HB Hsub. split; [done|]. split; [apply cells_grow_refl|].
  intros c Hc. left. by apply Hsub.
Qed.

Lemma frontier_grows_refl mm q B : frontier_grows mm q B mm q B.
Proof. apply frontier_grows_super; [lra | done]. Qed.

Lemma sq_inv_add s i j m1 score addI addJ :
  sq_inv (Some (i, j)) s -> in_range N N i j ->
  cell (matchMatrix_ s) i j = Some m1 -> expanded m1 ->
  0 <= addI <= 1 -> 0 <= addJ <= 1 ->
  ((addI = 1 /\ addJ = 1 /\ (0 < eval m1)%Q /\ (score == base m1 + eval m1)%Q) \/
   (addI + addJ = 1 /\ (score == base m1)%Q)) ->
  sq_inv (Some (i, j)) (addCandidate N N score i j addI addJ s) /\
  covered (matchMatrix_ (addCandidate N N score i j addI addJ s))
          (queue_ (addCandidate N N score i j addI addJ s))
          (bestMatch_ (addCandidate N N score i j addI addJ s))
          (i + addI) (j + addJ) score /\
  frontier_grows (matchMatrix_ s) (queue_ s) (bestMatch_ s)
    (matchMatrix_ (addCandidate N N score i j addI addJ s))
    (queue_ (addCandidate N N score i j addI addJ s))
    (bestMatch_ (addCandidate N N score i j addI addJ s)).
Proof.
  intros Hinv Hin Hm1 Hex1 HaI HaJ Hkind.
  pose proof Hinv as [Hrange Hscores Hsize Hcells Hcov Hreach Hpred Hbest Hres].
  pose proof N_u32 as HN32. pose proof Hin as [Hi Hj].
  destruct (cells_ok_expanded _ _ _ _ Hcells Hin Hm1 Hex1) as (He & Hb0 & He01).
  assert (Hscore0 : (0 <= score)%Q) by (destruct Hkind as [(_ & _ & ? & ?)|[_ ?]]; lra).
  assert (Hscore_le : (score <= base m1 + (if Qltb 0 (eval m1) then eval m1 else 0))%Q).
  { destruct (Qltb 0 (eval m1)) eqn:Hpos.
    - destruct Hkind as [(_ & _ & ? & ?)|[_ ?]]; lra.
    - apply Qltb_ge in Hpos. destruct Hkind as [(_ & _ & ? & ?)|[_ ?]]; lra. }
  assert (Hreached : reached (i + addI) (j + addJ) score).
  { destruct Hreach as [_ Hrc]. pose proof (Hrc i j m1 Hin Hm1 Hex1) as Hr.
    destruct Hkind as [(-> & -> & _ & Hs)|[_ Hs]].
    - eapply reached_eq; [apply reached_diag; [done | exact Hr]|]. lra.
    - eapply reached_eq; [apply reached_side; [lia | lia | exact Hr]|]. lra. }
  assert (Hpredz : pred (matchMatrix_ s) (i + addI) (j + addJ) score).
  { destruct Hkind as [(-> & -> & Hpos & Hs)|[Hside Hs]].
    - right; right; right. split; [lia|]. split; [lia|].
      replace (i + 1 - 1) with i by lia. replace (j + 1 - 1) with j by lia.
      exists m1. repeat split; try done. lra.
    - assert ((addI = 1 /\ addJ = 0) \/ (addI = 0 /\ addJ = 1)) as [[-> ->]|[-> ->]]
        by lia.
      + right; left. split; [lia|].
        replace (i + 1 - 1) with i by lia. replace (j + 0) with j by lia.
        exists m1. repeat split; try done. lra.
      + right; right; left. split; [lia|].
        replace (j + 1 - 1) with j by lia. replace (i + 0) with i by lia.
        exists m1. repeat split; try done. lra. }
  unfold addCandidate. rewrite !(u32_small (i + addI)), !(u32_small (j + addJ)) by lia.
  destruct ((N <=? i + addI) || (N <=? j + addJ)) eqn:Hout.
  - assert (N <= i + addI \/ N <= j + addJ) as Hout'
      by (apply orb_true_iff in Hout as [?%Z.leb_le | ?%Z.leb_le]; lia).
    destruct (Qltb (bestMatch_ s) score) eqn:Himp.
    + apply Qltb_lt in Himp. simpl.
      assert (Hgrow : frontier_grows (matchMatrix_ s) (queue_ s) (bestMatch_ s)
                        (matchMatrix_ s) (queue_ s) score)
        by (apply frontier_grows_super; [lra | done]).
      split; [|split; [left; split; [done | lra] | done]].
      split; simpl; try done.
      * eapply coverage_but_grows; [exact Hgrow | done | done | done | done].
      * intros _. exists m1. by repeat split.
    + apply Qltb_ge in Himp.
      split; [done|]. split; [left; by split|]. apply frontier_grows_refl.
  - apply orb_false_iff in Hout as [Hi'%Z.leb_gt Hj'%Z.leb_gt].
    assert (Hinz : in_range N N (i + addI) (j + addJ)) by (split; lia).
    destruct (Qltb (bestMatch_ s) _) eqn:Hg.
    + unfold insertCandidate. simpl.
      set (z := {| cand_i := i + addI; cand_j := j + addJ; cand_score := score |}).
      assert (Hz : z ∈ insert_sorted N N z (queue_ s))
        by (rewrite insert_sorted_perm; by left).
      assert (Hsub : queue_ s ⊆ insert_sorted N N z (queue_ s)).
      { intros c Hc. rewrite insert_sorted_perm. by right. }
      assert (Hgrow : frontier_grows (matchMatrix_ s) (queue_ s) (bestMatch_ s)
                        (matchMatrix_ s) (insert_sorted N N z (queue_ s)) (bestMatch_ s))
        by (apply frontier_grows_super; [lra | done]).
      split; [|split; [|done]].
      * split; simpl; try done.
        -- by apply insert_sorted_Forall.
        -- by apply insert_sorted_Forall.
        -- eapply coverage_but_grows; [exact Hgrow | done | done | done | done].
        -- destruct Hreach as [Hrq Hrc]. split; [|done]. by apply insert_sorted_Forall.
        -- destruct Hpred as [Hpq Hpc]. split; [|done]. by apply insert_sorted_Forall.
      * right. split; [done|]. left. exists z. repeat split; try done. simpl. lra.
    + apply Qltb_ge in Hg.
      split; [done|]. split; [|apply frontier_grows_refl].
      right. split; [done|]. right; right. left.
      unfold maxPossibleScore in Hg. exact Hg.
Qed.

Lemma matchMatrix_prune_of minScore s :
  matchMatrix_ (prune_of N N r minScore s) = matchMatrix_ s.
Proof.
  destruct r; simpl; [apply matchMatrix_Lmm_prune | apply matchMatrix_Rev2_prune].
Qed.

Lemma sq_inv_prune s i j m1 ms :
  sq_inv (Some (i, j)) s -> in_range N N i j ->
  cell (matchMatrix_ s) i j = Some m1 -> expanded m1 ->
  (ms == base m1 + eval m1)%Q ->
  sq_inv (Some (i, j)) (prune_of N N r ms s) /\
  frontier_grows (matchMatrix_ s) (queue_ s) (bestMatch_ s)
    (matchMatrix_ (prune_of N N r ms s)) (queue_ (prune_of N N r ms s))
    (bestMatch_ (prune_of N N r ms s)).
Proof.
  intros [Hrange Hscores Hsize Hcells Hcov Hreach Hpred Hbest Hres] Hin Hm1 Hex1 Hms.
  pose proof (prune_of_queue N N r ms s) as Hsub.
  assert (Hsub' : queue_ (prune_of N N r ms s) ⊆ queue_ s) by by apply sublist_subseteq.
  assert (Hall : forall P : Candidate -> Prop,
            Forall P (queue_ s) -> Forall P (queue_ (prune_of N N r ms s))).
  { intros P HP. rewrite Forall_forall in *. auto. }
  assert (Hgrow : frontier_grows (matchMatrix_ s) (queue_ s) (bestMatch_ s)
            (matchMatrix_ s) (queue_ (prune_of N N r ms s)) (bestMatch_ s)).
  { split; [lra|]. split; [apply cells_grow_refl|]. intros c Hc.
    destruct (prune_of_removed r N N ms s c Hc) as [Hk|Hlow]; [by left|].
    right; right. right; right. exists i, j, m1.
    unfold reaches in Hlow. apply not_true_iff_false in Hlow.
    rewrite Qle_bool_iff, upperBound_space in Hlow.
    repeat split; try done; try apply Hin. lra. }
  unfold bestRes_ok.
  rewrite matchMatrix_prune_of, prune_of_bestMatch. split; [|done].
  split; unfold bestRes_ok;
    rewrite ?matchMatrix_prune_of, ?prune_of_bestMatch, ?prune_of_bestRes; try done.
  - by apply Hall.
  - by apply Hall.
  - by eapply coverage_but_grows.
  - destruct Hreach as [Hrq Hrc]. split; [by apply Hall | done].
  - destruct Hpred as [Hpq Hpc]. split; [by apply Hall | done].
Qed.

Lemma sq_inv_close s i j m1 :
  sq_inv (Some (i, j)) s -> cell (matchMatrix_ s) i j = Some m1 ->
  cell_covered (matchMatrix_ s) (queue_ s) (bestMatch_ s) i j m1 ->
  sq_inv None s.
Proof.
  intros [Hrange Hscores Hsize Hcells [Hstart Hcov] Hreach Hpred Hbest Hres] Hm1 Hcov1.
  split; try done. split; [done|]. intros i' j' m Hin _ Hm Hex.
  destruct (decide ((i, j) = (i', j'))) as [[= <- <-]|Hne].
  - assert (m = m1) as -> by congruence. done.
  - apply Hcov; try done. congruence.
Qed.

Lemma covered_le mm q B i j sc sc' :
  covered mm q B i j sc -> (sc' <= sc)%Q -> covered mm q B i j sc'.
Proof.
  intros [[Hout Hb] | [Hin Hcov]] Hle.
  - left. split; [done | lra].
  - right. split; [done|].
    destruct Hcov as [(c & Hc & Hi & Hj & Hs) | [(m & Hm & Hex & Hs) | Hp]].
    + left. exists c. repeat split; try done. lra.
    + right; left. exists m. repeat split; try done. lra.
    + right; right. eapply promised_le; [exact Hp | lra].
Qed.

Lemma sq_inv_successors s cand e m1 :
  sq_inv (Some (cand_i cand, cand_j cand)) s -> cand_in_range N N cand ->
  cell (matchMatrix_ s) (cand_i cand) (cand_j cand) = Some m1 -> expanded m1 ->
  eval m1 = e -> (base m1 == cand_score cand)%Q ->
  sq_inv None (successors N N thr r cand e s).
Proof.
  destruct cand as [i j sc]. simpl. intros Hinv Hin Hm1 Hex1 <- Hb1.
  unfold successors. simpl.
  set (sd := if Qltb 0 (eval m1)
             then prune_of N N r (sc + eval m1)
                    (addCandidate N N (sc + eval m1) i j 1 1 s)
             else s).
  assert (Hd : sq_inv (Some (i, j)) sd /\ matchMatrix_ sd = matchMatrix_ s /\
               ((0 < eval m1)%Q ->
                covered (matchMatrix_ sd) (queue_ sd) (bestMatch_ sd)
                        (i + 1) (j + 1) (base m1 + eval m1))).
  { subst sd. destruct (Qltb 0 (eval m1)) eqn:Hpos.
    - apply Qltb_lt in Hpos.
      destruct (sq_inv_add s i j m1 (sc + eval m1) 1 1 Hinv Hin Hm1 Hex1)
        as (Hinva & Hcova & _); [lia | lia | left; repeat split; try done; lra |].
      set (sa := addCandidate N N (sc + eval m1) i j 1 1 s) in *.
      assert (Hmma : matchMatrix_ sa = matchMatrix_ s)
        by apply matchMatrix_addCandidate.
      destruct (sq_inv_prune sa i j m1 (sc + eval m1) Hinva Hin) as (Hinvd & Hgrow);
        [by rewrite Hmma | done | lra |].
      split; [done|]. split; [by rewrite matchMatrix_prune_of|]. intros _.
      eapply covered_grows; [exact Hgrow | apply Hinva | apply Hinvd |].
      eapply covered_le; [exact Hcova | lra].
    - apply Qltb_ge in Hpos. split; [done|]. split; [done|]. intros ?. lra. }
  destruct Hd as (Hinvd & Hmmd & Hcovd). clearbody sd.
  assert (Hm1d : cell (matchMatrix_ sd) i j = Some m1) by by rewrite Hmmd.
  destruct (Qltb (eval m1) thr) eqn:Hbranch.
  - destruct (sq_inv_add sd i j m1 sc 1 0 Hinvd Hin Hm1d Hex1)
      as (Hinv1 & Hcov1 & Hgrow1); [lia | lia | right; split; [lia | lra] |].
    set (s1 := addCandidate N N sc i j 1 0 sd) in *.
    assert (Hmm1 : matchMatrix_ s1 = matchMatrix_ sd) by apply matchMatrix_addCandidate.
    assert (Hm11 : cell (matchMatrix_ s1) i j = Some m1) by by rewrite Hmm1.
    destruct (sq_inv_add s1 i j m1 sc 0 1 Hinv1 Hin Hm11 Hex1)
      as (Hinv2 & Hcov2 & Hgrow2); [lia | lia | right; split; [lia | lra] |].
    set (s2 := addCandidate N N sc i j 0 1 s1) in *.
    assert (Hmm2 : matchMatrix_ s2 = matchMatrix_ s1) by apply matchMatrix_addCandidate.
    replace (j + 0) with j in Hcov1 by lia. replace (i + 0) with i in Hcov2 by lia.
    apply (sq_inv_close s2 i j m1 Hinv2); [by rewrite Hmm2|]. split.
    + intros Hpos.
      eapply covered_grows; [exact Hgrow2 | apply Hinv1 | apply Hinv2 |].
      eapply covered_grows; [exact Hgrow1 | apply Hinvd | apply Hinv1 |].
      by apply Hcovd.
    + intros _. split.
      * eapply covered_grows; [exact Hgrow2 | apply Hinv1 | apply Hinv2 |].
        eapply covered_le; [exact Hcov1 | lra].
      * eapply covered_le; [exact Hcov2 | lra].
  - apply Qltb_ge in Hbranch.
    apply (sq_inv_close sd i j m1 Hinvd Hm1d). split; [done|]. intros ?. lra.
Qed.

End Square.

(** *** [step] keeps the invariant *)

Section SquareStep.

Variables (N : Z) (matcher : Matcher) (thr : Q).
Hypothesis HN : 0 < N.
Hypothesis Hfit : N * N < 2 ^ 32.
Hypothesis Hcontract : matcher_contract N N matcher.

Lemma expanded_dec (m : EvalMatch) : expanded m \/ (eval m == -1)%Q.
Proof. unfold expanded. destruct (Qeq_dec (eval m) (-1)); [by right | by left]. Qed.

Lemma cell_eval_expanded m cand :
  expanded m -> cell_eval matcher m cand = eval m.
Proof.
  intros Hex. unfold cell_eval. destruct (Qeq_bool (eval m) (-1)) eqn:Heq; [|done].
  apply Qeq_bool_iff in Heq. by destruct Hex.
Qed.

Lemma cell_eval_fresh m cand :
  (eval m == -1)%Q -> cell_eval matcher m cand = matcher (cand_i cand) (cand_j cand).
Proof.
  intros Heq. unfold cell_eval. apply Qeq_bool_iff in Heq. by rewrite Heq.
Qed.

Lemma Rev2_step_sq s more s' :
  sq_inv slow_prune_rev N matcher thr None s ->
  Rev2.step N N matcher thr s = Done (more, s') ->
  sq_inv slow_prune_rev N matcher thr None s'.
Proof.
  intros Hinv Hstep. apply Rev2_step_view in Hstep.
  destruct (queue_ s) as [|cand rest] eqn:Hq; [by destruct Hstep as [_ ->]|].
  destruct Hstep as (_ & m & Hm & Hstep).
  assert (Hin : cand_in_range N N cand).
  { destruct Hinv as [Hr _ _ _ _ _ _ _ _]. rewrite Hq in Hr. by inversion Hr. }
  assert (Hc0 : (0 <= cand_score cand)%Q).
  { destruct Hinv as [_ Hs _ _ _ _ _ _ _]. rewrite Hq in Hs. by inversion Hs. }
  assert (Hcell : cell N (matchMatrix_ s) (cand_i cand) (cand_j cand) = Some m) by done.
  assert (Hok : cell_ok slow_prune_rev matcher (cand_i cand) (cand_j cand) m).
  { destruct Hinv as [_ _ _ Hcells _ _ _ _ _].
    destruct (Hcells _ _ Hin) as (m' & Hm' & Hok). congruence. }
  destruct (Qle_bool (cand_score cand) (best m)) eqn:Hskip.
  - apply Qle_bool_iff in Hskip.
    eapply (sq_inv_skip slow_prune_rev) with (c := cand) (m := m); try done.
    destruct (expanded_dec m) as [Hex|Hun]; [done|].
    destruct Hok as [[_ Hb]|[He _]]; [lra|].
    destruct (Hcontract _ _ (proj1 Hin) (proj2 Hin)). intros ?. lra.
  - assert (Hlt : (best m < cand_score cand)%Q).
    { apply Qnot_le_lt. intros Hle. apply Qle_bool_iff in Hle. congruence. }
    destruct Hstep as (s1 & Hpop & ->).
    destruct (sq_inv_expand slow_prune_rev N matcher thr HN Hfit Hcontract s cand rest m
                {| eval := cell_eval matcher m cand; best := cand_score cand |} s1)
      as (Hinv1 & Hcell1 & Hex1); try done.
    + intros Hex. simpl. rewrite cell_eval_expanded by done. split; [lra | done].
    + intros Hun. simpl. destruct (expanded_dec m) as [Hex|Heq]; [done|].
      by rewrite cell_eval_fresh.
    + eapply sq_inv_successors; try done.
Qed.

Lemma Lmm_step_sq s more s' :
  sq_inv lmm_cpp N matcher thr None s ->
  Lmm.step N N matcher thr s = Done (more, s') ->
  sq_inv lmm_cpp N matcher thr None s'.
Proof.
  intros Hinv Hstep. apply Lmm_step_view in Hstep.
  destruct (queue_ s) as [|cand rest] eqn:Hq; [by destruct Hstep as [_ ->]|].
  destruct Hstep as (_ & m & Hm & Hstep).
  assert (Hin : cand_in_range N N cand).
  { destruct Hinv as [Hr _ _ _ _ _ _ _ _]. rewrite Hq in Hr. by inversion Hr. }
  assert (Hc0 : (0 <= cand_score cand)%Q).
  { destruct Hinv as [_ Hs _ _ _ _ _ _ _]. rewrite Hq in Hs. by inversion Hs. }
  assert (Hcell : cell N (matchMatrix_ s) (cand_i cand) (cand_j cand) = Some m) by done.
  assert (Hok : cell_ok lmm_cpp matcher (cand_i cand) (cand_j cand) m).
  { destruct Hinv as [_ _ _ Hcells _ _ _ _ _].
    destruct (Hcells _ _ Hin) as (m' & Hm' & Hok). congruence. }
  destruct (Hcontract _ _ (proj1 Hin) (proj2 Hin)) as [Hmat0 Hmat1].
  assert (Hfacts : expanded m ->
            (eval m == matcher (cand_i cand) (cand_j cand))%Q /\
            cell_eval matcher m cand = eval m).
  { intros Hex. split; [|by apply cell_eval_expanded].
    destruct Hok as [[He _]|[He _]]; [by destruct Hex | done]. }
  destruct (Qle_bool (cand_score cand + 1) (best m)) eqn:Hskip.
  - apply Qle_bool_iff in Hskip.
    assert (Hex : expanded m).
    { destruct (expanded_dec m) as [Hex|Hun]; [done|].
      destruct Hok as [[_ Hb]|[He _]]; [lra|]. intros ?. lra. }
    eapply (sq_inv_skip lmm_cpp) with (c := cand) (m := m); try done.
    destruct (Hfacts Hex) as [He _]. simpl. lra.
  - destruct (Qltb (best m) (cand_score cand + cell_eval matcher m cand)) eqn:Himp.
    + apply Qltb_lt in Himp.
      destruct Hstep as (s1 & Hpop & ->).
      destruct (sq_inv_expand lmm_cpp N matcher thr HN Hfit Hcontract s cand rest m
                  {| eval := cell_eval matcher m cand;
                     best := cand_score cand + cell_eval matcher m cand |} s1)
        as (Hinv1 & Hcell1 & Hex1); try done.
      * intros Hex. simpl. destruct (Hfacts Hex) as [He Heq]. rewrite Heq in *.
        split; [lra | done].
      * intros Hun. simpl. destruct (expanded_dec m) as [Hex|Heq]; [done|].
        by rewrite cell_eval_fresh.
      * simpl. lra.
      * eapply sq_inv_successors; try done. simpl. lra.
    + apply Qltb_ge in Himp.
      assert (Hex : expanded m).
      { destruct (expanded_dec m) as [Hex|Hun]; [done|].
        rewrite cell_eval_fresh in Himp by done.
        destruct Hok as [[_ Hb]|[He _]]; [lra|]. intros ?. lra. }
      destruct (Hfacts Hex) as [He Heq]. rewrite Heq in Himp.
      assert (Qeq_bool (eval m) (-1) = false) as Hne.
      { apply not_true_iff_false. intros Ht. apply Qeq_bool_iff in Ht. by apply Hex. }
      rewrite Hne in Hstep.
      eapply (sq_inv_skip lmm_cpp) with (c := cand) (m := m); try done.
      simpl. lra.
Qed.

Lemma engine_state_sq r s :
  engine_state r N N matcher thr s -> sq_inv r N matcher thr None s.
Proof.
  induction 1 as [|s0 more s1 _ IH Hstep].
  - by apply sq_inv_construct.
  - destruct r; simpl in Hstep; [by eapply Lmm_step_sq | by eapply Rev2_step_sq].
Qed.

End SquareStep.

(** ** The finished engine on a square matrix *)

Lemma ex_max {A} (f : A -> Q) (l : list A) (x0 : A) :
  x0 ∈ l -> exists x, x ∈ l /\ forall y, y ∈ l -> (f y <= f x)%Q.
Proof.
  revert x0. induction l as [|a l IH]; intros x0 Hx0; [by apply elem_of_nil in Hx0|].
  destruct l as [|b l].
  - exists a. split; [by left|]. intros y ->%list_elem_of_singleton. lra.
  - destruct (IH b ltac:(by left)) as (x & Hx & Hmax).
    destruct (Qlt_le_dec (f x) (f a)) as [Hlt|Hle].
    + exists a. split; [by left|]. intros y [->|Hy]%elem_of_cons; [lra|].
      specialize (Hmax y Hy). lra.
    + exists x. split; [by right|]. intros y [->|Hy]%elem_of_cons; [lra|].
      by apply Hmax.
Qed.

Lemma monotone_path_cons W H p R :
  monotone_path W H (p :: R) = true ->
  in_range W H p.1 p.2 /\ monotone_path W H R = true /\
  Forall (fun q => p.1 < q.1 /\ p.2 < q.2) R.
Proof.
  revert p. induction R as [|[qi qj] R IH]; intros [pi pj]; simpl.
  - intros Hp. repeat (apply andb_true_iff in Hp as [Hp ?]).
    split; [split; lia|]. split; [done | constructor].
  - intros Hp. apply andb_true_iff in Hp as [Hp Hrest].
    apply andb_true_iff in Hp as [Hp Hnext].
    repeat (apply andb_true_iff in Hp as [Hp ?]).
    apply andb_true_iff in Hnext as [? ?].
    destruct (IH (qi, qj) Hrest) as (_ & _ & Hall).
    split; [split; lia|]. split; [done|].
    constructor; [simpl; lia|].
    eapply Forall_impl; [exact Hall|]. simpl. lia.
Qed.



Section Final.

Variables (r : revision) (N : Z) (matcher : Matcher) (thr : Q).
Hypothesis HN : 0 < N.
Hypothesis Hfit : N * N < 2 ^ 32.
Hypothesis Hcontract : matcher_contract N N matcher.



Lemma path_score_nonneg R :
  monotone_path N N R = true -> (0 <= path_score matcher R)%Q.
Proof.
  induction R as [|[pi pj] R IH]; intros Hmono; simpl; [lra|].
  destruct (monotone_path_cons N N _ _ Hmono) as ([Hpi Hpj] & Hmono' & _).
  destruct (Hcontract pi pj Hpi Hpj). specialize (IH Hmono'). simpl in *. lra.
Qed.

Variable s : LazyMatrixMarch.
Hypothesis Hinv : sq_inv r N matcher thr None s.
Hypothesis Hempty : queue_ s = [].
Hypothesis Hthr0 : (0 < thr)%Q.

Definition value_at (p : Z * Z) : Q :=
  match cell N (matchMatrix_ s) p.1 p.2 with
  | Some m => (base r m + eval m)%Q
  | None => 0%Q
  end.

Definition expanded_at (p : Z * Z) : bool :=
  match cell N (matchMatrix_ s) p.1 p.2 with
  | Some m => negb (Qeq_bool (eval m) (-1))
  | None => false
  end.

Definition expanded_cells : list (Z * Z) :=
  List.filter expanded_at (list_prod (seqZ 0 N) (seqZ 0 N)).

Lemma elem_of_expanded_cells i j :
  (i, j) ∈ expanded_cells <->
  in_range N N i j /\
  exists m, cell N (matchMatrix_ s) i j = Some m /\ expanded m.
Proof.
  unfold expanded_cells. rewrite list_elem_of_In, filter_In, in_prod_iff.
  rewrite <- !list_elem_of_In, !elem_of_seqZ. unfold expanded_at, in_range. simpl.
  split.
  - intros [[Hi Hj] Hex]. split; [lia|].
    destruct (cell N (matchMatrix_ s) i j) as [m|]; [|done].
    exists m. split; [done|]. intros Heq. apply Qeq_bool_iff in Heq.
    by rewrite Heq in Hex.
  - intros [[Hi Hj] (m & -> & Hex)]. split; [lia|].
    apply negb_true_iff, not_true_iff_false. intros Heq.
    by apply Qeq_bool_iff in Heq.
Qed.

(** Among the expanded cells, one of greatest value and, among those, farthest
    from the start. *)
Lemma top_cell i0 j0 m0 :
  in_range N N i0 j0 -> cell N (matchMatrix_ s) i0 j0 = Some m0 -> expanded m0 ->
  exists i2 j2 m2,
    in_range N N i2 j2 /\ cell N (matchMatrix_ s) i2 j2 = Some m2 /\ expanded m2 /\
    forall i j m,
      in_range N N i j -> cell N (matchMatrix_ s) i j = Some m -> expanded m ->
      (base r m + eval m <= base r m2 + eval m2)%Q /\
      ((base r m2 + eval m2 <= base r m + eval m)%Q -> i + j <= i2 + j2).
Proof.
  intros Hin0 Hm0 Hex0.
  assert (H0 : (i0, j0) ∈ expanded_cells)
    by (apply elem_of_expanded_cells; eauto).
  destruct (ex_max value_at expanded_cells _ H0) as ([i1 j1] & H1 & Hmax1).
  set (v := value_at (i1, j1)) in *.
  set (top := List.filter (fun p => Qle_bool v (value_at p)) expanded_cells).
  assert (Htop : forall p, p ∈ top <-> p ∈ expanded_cells /\ (v <= value_at p)%Q).
  { intros p. unfold top. rewrite list_elem_of_In, filter_In, <- list_elem_of_In.
    by rewrite Qle_bool_iff. }
  assert (H1' : (i1, j1) ∈ top) by (apply Htop; split; [done | unfold v; lra]).
  destruct (ex_max (fun p => inject_Z (p.1 + p.2)) top _ H1') as ([i2 j2] & H2 & Hmax2).
  apply Htop in H2 as [H2 Hv2].
  pose proof H2 as H2'. apply elem_of_expanded_cells in H2' as (Hin2 & m2 & Hm2 & Hex2).
  exists i2, j2, m2. split; [done|]. split; [done|]. split; [done|].
  intros i j m Hin Hm Hex.
  assert (Hp : (i, j) ∈ expanded_cells) by (apply elem_of_expanded_cells; eauto).
  assert (Hvp : value_at (i, j) = (base r m + eval m)%Q)
    by (unfold value_at; simpl; by rewrite Hm).
  assert (Hv2' : value_at (i2, j2) = (base r m2 + eval m2)%Q)
    by (unfold value_at; simpl; by rewrite Hm2).
  rewrite Hv2' in Hv2. split.
  - specialize (Hmax1 _ Hp). rewrite Hvp in Hmax1. fold v in Hmax1. lra.
  - intros Hge.
    assert (Hp' : (i, j) ∈ top).
    { apply Htop. split; [done|]. rewrite Hvp.
      specialize (Hmax1 _ H2). rewrite Hv2' in Hmax1. fold v in Hmax1. lra. }
    specialize (Hmax2 _ Hp'). simpl in Hmax2. by rewrite <- Zle_Qle in Hmax2.
Qed.

(** Every expanded cell has led to a finished path: its score and match
    value together are not above [bestMatch_]. *)
Lemma final_value i0 j0 m0 :
  in_range N N i0 j0 -> cell N (matchMatrix_ s) i0 j0 = Some m0 -> expanded m0 ->
  (base r m0 + eval m0 <= bestMatch_ s)%Q.
Proof.
  intros Hin0 Hm0 Hex0.
  destruct (top_cell i0 j0 m0 Hin0 Hm0 Hex0) as (i2 & j2 & m2 & Hin2 & Hm2 & Hex2 & Htop).
  destruct (Htop i0 j0 m0 Hin0 Hm0 Hex0) as [Hle0 _].
  enough ((base r m2 + eval m2 <= bestMatch_ s)%Q) by lra.
  pose proof Hinv as [_ _ _ Hcells [_ Hcov] _ _ _ _].
  destruct (cells_ok_expanded r N matcher Hcontract _ _ _ _ Hcells Hin2 Hm2 Hex2)
    as (_ & Hb2 & He2).
  (* a successor covered with the value of the top cell is finished *)
  assert (Hsucc : forall di dj sc,
            0 <= di -> 0 <= dj -> 0 < di + dj ->
            covered r N (matchMatrix_ s) (queue_ s) (bestMatch_ s) (i2 + di) (j2 + dj) sc ->
            (base r m2 + eval m2 <= sc)%Q -> (sc <= bestMatch_ s)%Q).
  { intros di dj sc Hdi Hdj Hd Hc Hsc. rewrite Hempty in Hc.
    destruct Hc as [[_ Hb] | [Hin [(c & Hc & _) | [(m & Hm & Hex & Hs) | Hp]]]].
    - done.
    - by apply elem_of_nil in Hc.
    - destruct (cells_ok_expanded r N matcher Hcontract _ _ _ _ Hcells Hin Hm Hex)
        as (_ & _ & He).
      destruct (Htop _ _ m Hin Hm Hex) as [_ Hdepth].
      assert (i2 + di + (j2 + dj) <= i2 + j2) by (apply Hdepth; lra). lia.
    - assert (Hsp : (1 <= space N (i2 + di) (j2 + dj))%Q)
        by (by apply space_in_range).
      destruct Hp as [Hb | [(c & Hc & _) | (i & j & m & Hinm & Hm & Hex & Hv)]].
      + lra.
      + by apply elem_of_nil in Hc.
      + destruct (Htop _ _ m Hinm Hm Hex) as [Hle _]. lra. }
  destruct (Hcov i2 j2 m2 Hin2 ltac:(done) Hm2 Hex2) as [Hdiag Hside].
  destruct (Qlt_le_dec 0 (eval m2)) as [Hpos|Hzero].
  - apply (Hsucc 1 1 (base r m2 + eval m2)%Q); [lia | lia | lia | by apply Hdiag | lra].
  - destruct Hside as [Hs1 _]; [lra|].
    assert ((base r m2 <= bestMatch_ s)%Q); [|lra].
    apply (Hsucc 1 0 (base r m2)); [lia | lia | lia | | lra].
    by replace (j2 + 0) with j2 by lia.
Qed.

Lemma final_promised v :
  promised r N (matchMatrix_ s) (queue_ s) (bestMatch_ s) v -> (v <= bestMatch_ s)%Q.
Proof.
  rewrite Hempty. intros [Hb | [(c & Hc & _) | (i & j & m & Hin & Hm & Hex & Hv)]].
  - done.
  - by apply elem_of_nil in Hc.
  - pose proof (final_value i j m Hin Hm Hex). lra.
Qed.

(** The condition of [dlg_assert(bestMatch_ >= 0.f)] in [run]. *)
Lemma final_nonneg : (0 <= bestMatch_ s)%Q.
Proof.
  pose proof Hinv as [_ _ _ Hcells [Hstart _] _ _ _ _]. rewrite Hempty in Hstart.
  destruct Hstart as [[_ Hb] | [Hin [(c & Hc & _) | [(m & Hm & Hex & Hs) | Hp]]]].
  - done.
  - by apply elem_of_nil in Hc.
  - pose proof (final_value 0 0 m Hin Hm Hex).
    destruct (cells_ok_expanded r N matcher Hcontract _ _ _ _ Hcells Hin Hm Hex)
      as (_ & _ & He). lra.
  - rewrite <- Hempty in Hp. apply final_promised in Hp.
    assert ((1 <= space N 0 0)%Q) by (by apply space_in_range). lra.
Qed.

Hypothesis Hthr : (1 <= thr)%Q.



End Final.

Lemma steps_of_Done_empty r W H matcher thr fuel s s' :
  steps_of r W H matcher thr fuel s = Done s' -> queue_ s' = [].
Proof.
  revert s. induction fuel as [|fuel IH]; intros s; [by destruct r|].
  rewrite steps_of_S.
  destruct (step_of r W H matcher thr s) as [[[] s1]| |] eqn:Hstep; simpl; try done.
  - apply IH.
  - intros [= <-]. by destruct (step_of_false _ _ _ _ _ _ _ Hstep) as [? ->].
Qed.




Section Rev2Final.

Variables (N : Z) (matcher : Matcher) (thr : Q).
Hypothesis HN : 0 < N.
Hypothesis Hfit : N * N < 2 ^ 32.
Hypothesis Hcontract : matcher_contract N N matcher.
Variable s : LazyMatrixMarch.
Hypothesis Hinv : sq_inv slow_prune_rev N matcher thr None s.
Hypothesis Hempty : queue_ s = [].
Hypothesis Hthr : (1 <= thr)%Q.










End Rev2Final.

(** ** Exactness on square matrices *)

Lemma square_final r N matcher thr fuel s :
  0 < N -> N * N < 2 ^ 32 -> matcher_contract N N matcher ->
  steps_of r N N matcher thr fuel (construct N N) = Done s ->
  sq_inv r N matcher thr None s /\ queue_ s = [].
Proof.
  intros HN Hfit Hc Hsteps. split; [|by eapply steps_of_Done_empty].
  apply engine_state_sq; try done.
  eapply steps_of_reachable; [constructor | exact Hsteps].
Qed.













(** ** Thresholds below [1] *)

(** X16.  On a square matrix, with a matcher that answers in
    [[0, 1]] and a positive threshold, the loop [while(step())] of either
    revision ends with [bestMatch_ >= 0]: the condition of
    [dlg_assert(bestMatch_ >= 0.f)] in [run] holds. *)
Theorem square_bestMatch_nonneg r N matcher thr fuel s :
  0 < N -> N * N < 2 ^ 32 -> matcher_contract N N matcher -> (0 < thr)%Q ->
  steps_of r N N matcher thr fuel (construct N N) = Done s ->
  (0 <= bestMatch_ s)%Q.
Proof.
  intros HN Hfit Hc Hthr Hsteps.
  destruct (square_final r N matcher thr fuel s HN Hfit Hc Hsteps) as [Hinv Hempty].
  by eapply (final_nonneg r N matcher thr).
Qed.

Lemma square_bestMatch_nonneg_witness :
  exists s,
    Rev2.steps 2 2 identity_matcher (1 # 2) 40 (construct 2 2) = Done s /\
    (0 <= bestMatch_ s)%Q.
Proof.
  eexists. split; [vm_compute; reflexivity|].
  apply (square_bestMatch_nonneg slow_prune_rev 2 identity_matcher (1 # 2) 40);
    [lia | lia | | by apply Qlt_alt | vm_compute; reflexivity].
  intros i j _. unfold identity_matcher. destruct (i =? j); split; lra.
Defined.

Lemma match_index_origin W : match_index W 0 0 = 0.
Proof. unfold match_index, u32. by rewrite Z.mul_0_r. Qed.

(** The first step when the seed cell does not match and the threshold is
    not positive: the cell is evaluated, nothing is queued. *)
Lemma Rev2_dead_end_step W H (matcher : Matcher) thr :
  0 < W -> 0 < H -> W * H < 2 ^ 32 ->
  (matcher 0%Z 0%Z == 0)%Q -> (thr <= 0)%Q ->
  exists s,
    Rev2.step W H matcher thr (construct W H) = Done (true, s) /\
    queue_ s = [] /\ bestMatch_ s = (-1)%Q /\ bestRes_ s = (0, 0) /\
    matchMatrix_ s !! 0%nat = Some {| eval := matcher 0 0; best := 0 |}.
Proof.
  intros HW HH Hfit He Hthr.
  assert (Hn : exists n, Z.to_nat (u32 (W * H)) = S n).
  { unfold u32. rewrite Z.mod_small by nia. exists (Z.to_nat (W * H) - 1)%nat. nia. }
  destruct Hn as [n Hn].
  assert (H0 : Qltb 0 (matcher 0 0) = false).
  { unfold Qltb. apply negb_false_iff, Qle_bool_iff. lra. }
  assert (H1 : Qltb (matcher 0 0) thr = false).
  { unfold Qltb. apply negb_false_iff, Qle_bool_iff. lra. }
  eexists. split.
  - unfold Rev2.step, construct. rewrite Hn.
    cbn [queue_ insertCandidate set_lists insert_sorted cand_i cand_j cand_score].
    unfold match_get, match_set, span_get, span_set. rewrite !match_index_origin.
    change (Z.to_nat 0) with 0%nat. cbn -[Qltb].
    change (Qle_bool 0 (-1)) with false. change (Qeq_bool (-1) (-1)) with true.
    cbn -[Qltb]. rewrite H0, H1. reflexivity.
  - cbn. done.
Qed.

Lemma Rev2_dead_end_steps W H (matcher : Matcher) thr fuel :
  0 < W -> 0 < H -> W * H < 2 ^ 32 ->
  (matcher 0%Z 0%Z == 0)%Q -> (thr <= 0)%Q -> (2 <= fuel)%nat ->
  exists s,
    Rev2.steps W H matcher thr fuel (construct W H) = Done s /\
    bestMatch_ s = (-1)%Q /\ bestRes_ s = (0, 0) /\
    matchMatrix_ s !! 0%nat = Some {| eval := matcher 0 0; best := 0 |}.
Proof.
  intros HW HH Hfit He Hthr Hfuel.
  destruct fuel as [|[|fuel]]; [lia | lia |].
  destruct (Rev2_dead_end_step W H matcher thr HW HH Hfit He Hthr)
    as (s & Hstep & Hq & Hrest).
  exists s. split; [|exact Hrest].
  cbn [Rev2.steps]. rewrite Hstep. cbn [mbind outcome_bind].
  unfold Rev2.step. by rewrite Hq.
Qed.

(** X17.  When the first cell does not match ([matcher(0, 0)] is [0])
    and the branch threshold is not positive, the first step queues nothing
    and [run] of the second revision returns a total of [-1] with no
    matches. *)
Theorem Rev2_run_dead_end W H (matcher : Matcher) thr raw fuel :
  0 < W -> 0 < H -> W * H < 2 ^ 32 ->
  (matcher 0%Z 0%Z == 0)%Q -> (thr <= 0)%Q -> (2 <= fuel)%nat ->
  Rev2.run W H matcher thr raw fuel (construct W H)
  = Done {| totalMatch := -1; matches := [] |}.
Proof.
  intros HW HH Hfit He Hthr Hfuel.
  destruct (Rev2_dead_end_steps W H matcher thr fuel HW HH Hfit He Hthr Hfuel)
    as (s & Hsteps & Hb & Hr & Hm).
  assert (H0 : Qltb 0 (matcher 0 0) = false).
  { unfold Qltb. apply negb_false_iff, Qle_bool_iff. lra. }
  unfold Rev2.run. rewrite Hsteps. cbn [mbind outcome_bind]. rewrite Hr, Hb.
  unfold match_get, span_get. rewrite match_index_origin.
  change (Z.to_nat 0) with 0%nat.
  rewrite Hm. cbn [mbind outcome_bind eval]. rewrite H0.
  assert (Hwalk : forall outID buf,
    Rev2.walk W (Z.to_nat (0 + 0)) s 0 0 outID buf = Done (outID, buf))
    by reflexivity.
  cbn [mbind outcome_bind]. rewrite Hwalk. cbn [mbind outcome_bind].
  unfold span_last. rewrite Z.sub_diag.
  change (Z.to_nat (u32 0)) with 0%nat. cbn [Nat.leb mbind outcome_bind].
  by rewrite Nat.sub_0_r, drop_all.
Qed.

Lemma Rev2_run_dead_end_witness :
  Rev2.run 3 2 (matcher_of []) 0 (fun _ => {| rm_i := 7; rm_j := 7; matchVal := 7 |})
    2 (construct 3 2)
  = Done {| totalMatch := -1; matches := [] |}.
Proof.
  apply Rev2_run_dead_end; [lia | lia | lia | reflexivity | by apply Qle_bool_iff | lia].
Defined.

(** ** Candidate nodes *)

(** The candidate nodes the engine owns: those linked in [queue_] and those
    parked in [freeList_].  A node is constructed by [insertCandidate] when
    the free list is empty, and never given back to the allocator. *)
Definition nodes (s : LazyMatrixMarch) : nat :=
  (length (queue_ s) + length (freeList_ s))%nat.

Section Nodes.

Variables width_ height_ : Z.
Variable matcher_ : Matcher.
Variable branchThreshold_ : Q.

Lemma insert_sorted_length cand q :
  length (insert_sorted width_ height_ cand q) = S (length q).
Proof. by rewrite (insert_sorted_perm width_ height_ cand q). Qed.

Lemma insertCandidate_nodes i j score s :
  nodes (insertCandidate width_ height_ i j score s)
  = match freeList_ s with [] => S (nodes s) | _ :: _ => nodes s end.
Proof.
  unfold nodes, insertCandidate. simpl. rewrite insert_sorted_length.
  destruct (freeList_ s); simpl; lia.
Qed.

Lemma addCandidate_nodes score i j addI addJ s :
  (nodes s <= nodes (addCandidate width_ height_ score i j addI addJ s) <= S (nodes s))%nat /\
  (freeList_ s <> [] ->
   nodes (addCandidate width_ height_ score i j addI addJ s) = nodes s).
Proof.
  unfold addCandidate. destruct (_ || _).
  - destruct (Qltb _ _); unfold nodes; simpl; split; (lia || done).
  - destruct (Qltb _ _); [|split; (lia || done)].
    rewrite insertCandidate_nodes. destruct (freeList_ s); [|split; (lia || done)].
    split; [lia | done].
Qed.

Lemma prune_of_nodes r minScore s :
  nodes (prune_of width_ height_ r minScore s) = nodes s.
Proof.
  unfold nodes. rewrite <- !length_app. apply Permutation_length, prune_of_perm.
Qed.

(** The end of [step], entered with the popped node on the free list: the
    first insertion reuses a node. *)
Lemma successors_nodes r cand e s :
  freeList_ s <> [] ->
  (nodes s <= nodes (successors width_ height_ branchThreshold_ r cand e s)
   <= nodes s + 2)%nat.
Proof.
  intros Hfree. unfold successors.
  set (d := addCandidate width_ height_ (cand_score cand + e) _ _ 1 1 s).
  assert (Hd : nodes d = nodes s) by (by apply addCandidate_nodes).
  pose proof (prune_of_nodes r (cand_score cand + e) d) as Hp.
  destruct (Qltb 0 e); destruct (Qltb e branchThreshold_); try lia.
  - set (p := prune_of _ _ _ _ _) in *.
    pose proof (addCandidate_nodes (cand_score cand) (cand_i cand) (cand_j cand) 1 0 p)
      as [H1 _].
    set (a := addCandidate _ _ _ _ _ 1 0 p) in *.
    pose proof (addCandidate_nodes (cand_score cand) (cand_i cand) (cand_j cand) 0 1 a)
      as [H2 _]. lia.
  - pose proof (addCandidate_nodes (cand_score cand) (cand_i cand) (cand_j cand) 1 0 s)
      as [H1 _].
    set (a := addCandidate _ _ _ _ _ 1 0 s) in *.
    pose proof (addCandidate_nodes (cand_score cand) (cand_i cand) (cand_j cand) 0 1 a)
      as [H2 _]. lia.
Qed.

Lemma match_set_lists s i j m s' :
  match_set width_ s i j m = Done s' ->
  queue_ s' = queue_ s /\ freeList_ s' = freeList_ s.
Proof. by intros ->%match_set_Done. Qed.

Lemma Rev2_step_nodes s more s' :
  Rev2.step width_ height_ matcher_ branchThreshold_ s = Done (more, s') ->
  (nodes s <= nodes s' <= nodes s + 2)%nat.
Proof.
  unfold Rev2.step.
  destruct (queue_ s) as [|cand rest] eqn:Hqs; [intros [= <- <-]; lia|].
  cbn zeta. intros (m & _ & Hstep)%bind_Done.
  assert (Hpop : nodes s = S (length rest + length (freeList_ s))).
  { unfold nodes. rewrite Hqs. simpl. lia. }
  destruct (Qle_bool _ _).
  - injection Hstep as <- <-. unfold nodes in *. simpl. lia.
  - apply bind_Done in Hstep as (sa & [Hqa Hfa]%match_set_lists & Hstep).
    apply bind_Done in Hstep as ([e sb] & Heval & [= <- <-]).
    assert (Hsb : queue_ sb = rest /\ freeList_ sb = cand :: freeList_ s).
    { destruct (Qeq_bool (eval m) (-1)).
      - apply bind_Done in Heval as (s2 & [Hq2 Hf2]%match_set_lists & [= <- <-]).
        simpl. by rewrite Hq2, Hf2, Hqa, Hfa.
      - injection Heval as <- <-. by rewrite Hqa, Hfa. }
    destruct Hsb as [Hqb Hfb].
    pose proof (successors_nodes slow_prune_rev cand e sb) as Hs.
    unfold successors, prune_of in Hs.
    assert (Hnb : nodes sb = nodes s).
    { unfold nodes. rewrite Hqb, Hfb, Hqs. simpl. lia. }
    rewrite <- Hnb. apply Hs. by rewrite Hfb.
Qed.

Lemma Lmm_step_nodes s more s' :
  Lmm.step width_ height_ matcher_ branchThreshold_ s = Done (more, s') ->
  (nodes s <= nodes s' <= nodes s + 2)%nat.
Proof.
  unfold Lmm.step.
  destruct (queue_ s) as [|cand rest] eqn:Hqs; [intros [= <- <-]; lia|].
  cbn zeta. intros (m & _ & Hstep)%bind_Done.
  destruct (Qle_bool _ _).
  - injection Hstep as <- <-. unfold nodes in *. rewrite Hqs. simpl. lia.
  - apply bind_Done in Hstep as ([m0 sb] & Heval & Hstep).
    assert (Hsb : queue_ sb = rest /\ freeList_ sb = cand :: freeList_ s).
    { destruct (Qeq_bool (eval m) (-1)).
      - apply bind_Done in Heval as (s2 & [Hq2 Hf2]%match_set_lists & [= <- <-]).
        simpl. by rewrite Hq2, Hf2.
      - by injection Heval as <- <-. }
    destruct Hsb as [Hqb Hfb].
    assert (Hnb : nodes sb = nodes s).
    { unfold nodes. rewrite Hqb, Hfb, Hqs. simpl. lia. }
    destruct (Qltb (best m0) _).
    + apply bind_Done in Hstep as (sc & [Hqc Hfc]%match_set_lists & [= <- <-]).
      pose proof (successors_nodes lmm_cpp cand (eval m0) sc) as Hs.
      unfold successors, prune_of in Hs.
      assert (Hnc : nodes sc = nodes s).
      { unfold nodes. rewrite Hqc, Hfc, Hqb, Hfb, Hqs. simpl. lia. }
      rewrite <- Hnc. apply Hs. by rewrite Hfc, Hfb.
    + injection Hstep as <- <-. lia.
Qed.

Lemma step_of_nodes r s more s' :
  step_of r width_ height_ matcher_ branchThreshold_ s = Done (more, s') ->
  (nodes s <= nodes s' <= nodes s + 2)%nat.
Proof. destruct r; [apply Lmm_step_nodes | apply Rev2_step_nodes]. Qed.

End Nodes.

(** X18.  After [k] calls of [step] on a constructed engine of
    either revision, the engine owns at least one and at most [1 + 2 * k]
    candidate nodes: the seed, and at most two new ones per call, the popped
    node being reused by the first insertion. *)
Theorem nodes_after_steps r W H matcher thr k s :
  call_step (step_of r W H matcher thr) k (construct W H) = Done s ->
  (1 <= nodes s <= 1 + 2 * k)%nat.
Proof.
  assert (Hgen : forall k s0 s,
    call_step (step_of r W H matcher thr) k s0 = Done s ->
    (nodes s0 <= nodes s <= nodes s0 + 2 * k)%nat).
  { clear. induction k as [|k IH]; simpl; intros s0 s Hrun.
    - injection Hrun as <-. lia.
    - apply bind_Done in Hrun as ([more s1] & Hstep & Hrun).
      apply step_of_nodes in Hstep. apply IH in Hrun. simpl in Hrun. lia. }
  intros Hrun. apply Hgen in Hrun.
  change (nodes (construct W H)) with 1%nat in Hrun. lia.
Qed.

(** A matcher that answers one half everywhere. *)
Definition half_matcher : Matcher := fun _ _ => (1 # 2)%Q.

Lemma nodes_after_steps_witness :
  exists s,
    call_step (Rev2.step 3 3 half_matcher 1) 2 (construct 3 3) = Done s /\
    nodes s = 5%nat /\ (1 <= nodes s <= 1 + 2 * 2)%nat.
Proof.
  eexists. split; [vm_compute; reflexivity|]. split; [vm_compute; reflexivity|].
  apply (nodes_after_steps slow_prune_rev 3 3 half_matcher 1 2).
  vm_compute; reflexivity.
Defined.
